(** * Smithy: a shallow embedding of the Git web front end

    The development follows [smithy.go] and the handler file of the
    repository.  Go strings are byte strings ([string]); a Go [error]
    value that may be [nil] is an [option error]; a Go function that
    returns [(T, error)] returns a [result T] unless the source also uses
    the value that comes with a non-nil error, in which case it returns the
    pair.  The go-git object store, the file system, the [git] executable
    and the HTML templates are collaborators of the program: they appear
    as data (what an iterator yields, what a lookup returns) or as fields
    of an environment record. *)

From Stdlib Require Import ZArith NArith Lia Ascii String.
From stdpp Require Import base option list sorting gmap strings.

Local Set Warnings "-register-all".
Local Open Scope Z_scope.

(** ** Errors and results *)

Definition error := string.

Inductive result (A : Type) : Type :=
| Ok (a : A)
| Err (e : error).
Arguments Ok {A} a.
Arguments Err {A} e.

Definition is_ok {A} (r : result A) : bool :=
  match r with Ok _ => true | Err _ => false end.

(** ** The go-git data the program reads *)

Definition Hash := string.

(** [plumbing.Reference]: a fully qualified name and its target. *)
Record Reference := mkReference {
  RefName : string;
  RefTarget : Hash
}.

(** [storer.ReferenceIter]: successive calls of [Next] give the references
    of [ri_refs], then [io.EOF] when [ri_end] is [None] and the error
    [e] when it is [Some e]. *)
Record ReferenceIter := mkReferenceIter {
  ri_refs : list Reference;
  ri_end : option error
}.

(** [time.Time] of a signature: an instant and the offset of its zone. *)
Record Time := mkTime {
  unix_seconds : Z;
  zone_offset : Z
}.

(** [filemode.FileMode] of an entry whose object is a blob. *)
Inductive FileMode := Regular | Deprecated | Executable | Symlink.

(** A tree with its subtrees loaded: [object.Tree].  An entry is a blob
    with its mode or a directory. *)
Inductive TreeNode :=
| Blob (mode : FileMode) (h : Hash)
| Dir (entries : list (string * TreeNode)).

Definition Tree := list (string * TreeNode).

(** [object.Commit].  [Parents] holds, for each parent hash of the commit,
    what loading that parent from the store gives; [CommitTree] is what
    [Tree()] gives. *)
Inductive Commit := mkCommit {
  CommitHash : Hash;
  AuthorName : string;
  AuthorEmail : string;
  AuthorWhen : Time;
  Message : string;
  Parents : list (result Commit);
  CommitTree : result Tree
}.

(** [object.CommitIter], as [ReferenceIter]: each [Next] gives the next
    element of [ci_items], a commit or an error, and [io.EOF] after the
    last one. *)
Record CommitIter := mkCommitIter {
  ci_items : list (result Commit)
}.

(** [plumbing.ZeroHash]. *)
Definition ZeroHash : Hash := "0000000000000000000000000000000000000000".

(** [git.Repository]: the operations of the store the program calls.
    [ResolveRevision] returns a pointer and an error: [Ok h] is the
    pointer to [h] with no error, [Err e] the error [e], and
    [RevisionOnError] the pointer that go-git returns beside the error,
    nil or a pointer to the zero hash. *)
Record GitRepository := mkGitRepository {
  IterReferences : result ReferenceIter;
  ResolveRevision : string -> result Hash;
  RevisionOnError : string -> option Hash;
  CommitObject : Hash -> result Commit;
  Log : Hash -> result CommitIter
}.

(** ** The registry ([Smithy], [RepositoryWithName]) *)

Record RepositoryWithName := mkRepositoryWithName {
  Name : string;
  Path : string;
  Repository : GitRepository
}.

(** The zero value of [RepositoryWithName], which a failed map lookup
    gives; its [Repository] pointer is nil and is never used here. *)
Definition nilRepository : GitRepository :=
  {| IterReferences := Err "nil repository";
     ResolveRevision := fun _ => Err "nil repository";
     RevisionOnError := fun _ => None;
     CommitObject := fun _ => Err "nil repository";
     Log := fun _ => Err "nil repository" |}.

Definition zeroRepositoryWithName : RepositoryWithName :=
  {| Name := ""; Path := ""; Repository := nilRepository |}.

Record Smithy := mkSmithy {
  Root : string;
  Title : string;
  Description : string;
  repos : gmap string RepositoryWithName
}.

Definition set_repos (sc : Smithy) (m : gmap string RepositoryWithName) : Smithy :=
  {| Root := Root sc; Title := Title sc; Description := Description sc; repos := m |}.

(** The file system as [LoadAllRepositories] uses it: [os.ReadDir] gives
    the entry names of a directory, [path.Join] a path, [git.PlainOpen] a
    repository or an error. *)
Record FileSystem := mkFileSystem {
  ReadDir : string -> result (list string);
  pathJoin : string -> string -> string;
  PlainOpen : string -> result GitRepository
}.

Definition AddRepository (sc : Smithy) (rwn : RepositoryWithName) : Smithy :=
  set_repos sc (<[Name rwn := rwn]> (repos sc)).

(** One turn of the loop of [LoadAllRepositories] on the entry [f]. *)
Definition load_entry (fs : FileSystem) (root : string)
    (m : gmap string RepositoryWithName) (f : string) : gmap string RepositoryWithName :=
  let repoPath := pathJoin fs root f in
  match PlainOpen fs repoPath with
  | Err _ => m
  | Ok r => <[f := {| Name := f; Path := repoPath; Repository := r |}]> m
  end.

Definition load_entries (fs : FileSystem) (root : string) (files : list string)
    : gmap string RepositoryWithName :=
  foldl (load_entry fs root) ∅ files.

Definition LoadAllRepositories (fs : FileSystem) (sc : Smithy) : Smithy * option error :=
  match ReadDir fs (Root sc) with
  | Err e => (sc, Some e)
  | Ok files => (set_repos sc (load_entries fs (Root sc) files), None)
  end.

Definition FindRepo (sc : Smithy) (slug : string) : RepositoryWithName * bool :=
  match repos sc !! slug with
  | Some value => (value, true)
  | None => (zeroRepositoryWithName, false)
  end.

(** *** [LoadAllRepositories] statement by statement

    The function holds no lock and assigns [sc.repos] before its loop, so
    what another goroutine reads from [sc.repos] is the map of one of the
    states below. *)
Inductive ReloadPoint :=
| AtReadDir
| InLoop (pending : list string)
| AfterReturn (err : option error).

Definition reload_step (fs : FileSystem) (st : Smithy * ReloadPoint)
    : Smithy * ReloadPoint :=
  let '(sc, pc) := st in
  match pc with
  | AtReadDir =>
      match ReadDir fs (Root sc) with
      | Err e => (sc, AfterReturn (Some e))
      | Ok files => (set_repos sc ∅, InLoop files)
      end
  | InLoop [] => (sc, AfterReturn None)
  | InLoop (f :: rest) =>
      (set_repos sc (load_entry fs (Root sc) (repos sc) f), InLoop rest)
  | AfterReturn e => (sc, AfterReturn e)
  end.

Fixpoint reload_steps (fs : FileSystem) (n : nat) (st : Smithy * ReloadPoint)
    : Smithy * ReloadPoint :=
  match n with
  | O => st
  | S k => reload_steps fs k (reload_step fs st)
  end.

(** What a reader that runs between two statements of a reload of [sc]
    can see. *)
Definition observable (fs : FileSystem) (sc : Smithy)
    (m : gmap string RepositoryWithName) : Prop :=
  ∃ n, repos (reload_steps fs n (sc, AtReadDir)).1 = m.

(** ** Strings as the Go code uses them *)

(** [s[n:]]. *)
Fixpoint string_drop (n : nat) (s : string) : string :=
  match n, s with
  | O, _ => s
  | S _, EmptyString => EmptyString
  | S k, String _ s' => string_drop k s'
  end.

(** [strings.TrimPrefix]-like: the rest of [s] after [p], when [s] starts
    with [p]. *)
Definition strip_prefix (p s : string) : option string :=
  if String.prefix p s then Some (string_drop (String.length p) s) else None.

(** [strings.Replace(s, old, new, 1)]: the first occurrence of [old]
    replaced. *)
Fixpoint replace_first (old new s : string) : string :=
  match s with
  | EmptyString => if String.prefix old EmptyString then new else EmptyString
  | String c s' =>
      if String.prefix old s
      then new +:+ string_drop (String.length old) s
      else String c (replace_first old new s')
  end.

(** [strings.Split(s, "\n")[0]]. *)
Fixpoint first_line (s : string) : string :=
  match s with
  | EmptyString => EmptyString
  | String c s' => if Ascii.eqb c "010"%char then EmptyString else String c (first_line s')
  end.

(** ** References: [ReferenceByName], [ReferenceCollector], [ListBranches],
    [ListTags], [findMainBranch] *)

(** [ReferenceByName.Less]: [strings.Compare] of the full names is
    negative. *)
Definition ReferenceByName_Less (a b : Reference) : bool :=
  String.ltb (RefName a) (RefName b).

(** The order [sort.Sort] leaves its argument in: no element is [Less]
    than the one before it. *)
Definition ref_le (a b : Reference) : Prop :=
  ReferenceByName_Less b a = false.

#[global] Instance ref_le_dec : RelDecision ref_le.
Proof. intros a b. unfold ref_le. apply _. Defined.

(** [sort.Sort(ReferenceByName(refs))].  The library promises a
    permutation in the order of [Less], not which one; references of one
    repository have distinct names, and then there is only one. *)
Definition sort_refs (refs : list Reference) : list Reference :=
  merge_sort ref_le refs.

(** The loop of [ReferenceCollector]: [pending] and [ending] are what the
    iterator still has to give, [refs] the slice built so far. *)
Fixpoint collect_refs (pending : list Reference) (ending : option error)
    (refs : list Reference) : list Reference * option error :=
  match pending with
  | b :: rest => collect_refs rest ending (refs ++ [b])
  | [] =>
      match ending with
      | None => (sort_refs refs, None)
      | Some err => (refs, Some err)
      end
  end.

Definition ReferenceCollector (it : ReferenceIter) : list Reference * option error :=
  collect_refs (ri_refs it) (ri_end it) [].

(** [ReferenceName.IsBranch] and [IsTag]. *)
Definition IsBranch (n : string) : bool := String.prefix "refs/heads/" n.
Definition IsTag (n : string) : bool := String.prefix "refs/tags/" n.

(** [Repository.Branches] and [Repository.Tags]: the references of the
    store, filtered; they fail when the store's iterator cannot be made. *)
Definition filtered (keep : string -> bool) (it : ReferenceIter) : ReferenceIter :=
  {| ri_refs := List.filter (fun r => keep (RefName r)) (ri_refs it);
     ri_end := ri_end it |}.

Definition Branches (r : GitRepository) : result ReferenceIter :=
  match IterReferences r with
  | Err e => Err e
  | Ok it => Ok (filtered IsBranch it)
  end.

Definition Tags (r : GitRepository) : result ReferenceIter :=
  match IterReferences r with
  | Err e => Err e
  | Ok it => Ok (filtered IsTag it)
  end.

Definition ListBranches (r : GitRepository) : list Reference * option error :=
  match Branches r with
  | Err err => ([], Some err)
  | Ok it => ReferenceCollector it
  end.

Definition ListTags (r : GitRepository) : list Reference * option error :=
  match Tags r with
  | Err err => ([], Some err)
  | Ok it => ReferenceCollector it
  end.

(** *** [ReferenceName.Short], with [fmt.Sscanf] as go-git uses it *)

Definition byte_of (c : ascii) : Z := Z.of_N (N_of_ascii c).

(** [utf8.RuneError], U+FFFD, and its encoding. *)
Definition RuneError : Z := 65533.
Definition RuneErrorBytes : string :=
  String "239"%char (String "191"%char (String "189"%char EmptyString)).

Definition in_range (lo hi b : Z) : bool := (lo <=? b) && (b <=? hi).

(** [utf8.DecodeRuneInString]: the rune a text starts with and its width
    in bytes; [RuneError] and the width 1 where the bytes are no UTF-8;
    [None] for the empty text. *)
Definition DecodeRune (s : string) : option (Z * nat) :=
  match s with
  | EmptyString => None
  | String c0 s1 =>
      let b0 := byte_of c0 in
      if b0 <? 128 then Some (b0, 1%nat)
      else if (b0 <? 194) || (244 <? b0) then Some (RuneError, 1%nat)
      else
        let lo := if b0 =? 224 then 160 else if b0 =? 240 then 144 else 128 in
        let hi := if b0 =? 237 then 159 else if b0 =? 244 then 143 else 191 in
        match s1 with
        | EmptyString => Some (RuneError, 1%nat)
        | String c1 s2 =>
            let b1 := byte_of c1 in
            if negb (in_range lo hi b1) then Some (RuneError, 1%nat)
            else if b0 <? 224 then Some (Z.land b0 31 * 64 + Z.land b1 63, 2%nat)
            else
              match s2 with
              | EmptyString => Some (RuneError, 1%nat)
              | String c2 s3 =>
                  let b2 := byte_of c2 in
                  if negb (in_range 128 191 b2) then Some (RuneError, 1%nat)
                  else if b0 <? 240 then
                    Some (Z.land b0 15 * 4096 + Z.land b1 63 * 64 + Z.land b2 63, 3%nat)
                  else
                    match s3 with
                    | EmptyString => Some (RuneError, 1%nat)
                    | String c3 _ =>
                        let b3 := byte_of c3 in
                        if negb (in_range 128 191 b3) then Some (RuneError, 1%nat)
                        else Some (Z.land b0 7 * 262144 + Z.land b1 63 * 4096
                                   + Z.land b2 63 * 64 + Z.land b3 63, 4%nat)
                    end
              end
        end
  end.

(** [isSpace] of [fmt]: the white space of Unicode below U+10000. *)
Definition isSpace (r : Z) : bool :=
  in_range 9 13 r || (r =? 32) || (r =? 133) || (r =? 160) || (r =? 5760)
  || in_range 8192 8202 r || in_range 8232 8233 r || (r =? 8239) || (r =? 8287)
  || (r =? 12288).

(** [SkipSpace] of a scan made by [Sscanf]: white space is passed over,
    a line feed is an error ([None]). *)
Fixpoint skip_space (fuel : nat) (s : string) : option string :=
  match fuel with
  | O => Some s
  | S k =>
      match DecodeRune s with
      | None => Some s
      | Some (r, w) =>
          if r =? 10 then None
          else if isSpace r then skip_space k (string_drop w s)
          else Some s
      end
  end.

(** The bytes [writeRune] appends for the rune [s] starts with: the
    bytes read, or the encoding of [RuneError] for a byte that is no
    UTF-8. *)
Definition rune_bytes (w : nat) (s : string) : string :=
  match s with
  | EmptyString => EmptyString
  | String c0 _ =>
      if (128 <=? byte_of c0) && Nat.eqb w 1 then RuneErrorBytes
      else String.substring 0 w s
  end.

(** [token(true, notSpace)]: the runes up to the next white space or the
    end. *)
Fixpoint read_word (fuel : nat) (s : string) : string :=
  match fuel with
  | O => EmptyString
  | S k =>
      match DecodeRune s with
      | None => EmptyString
      | Some (r, w) =>
          if isSpace r then EmptyString
          else rune_bytes w s +:+ read_word k (string_drop w s)
      end
  end.

(** [fmt.Sscanf(s, literal + "%s", &res)]: the word assigned to [res],
    [None] when the call fails before it assigns: the text does not start
    with the literal, a line feed comes before the word, or there is no
    word. *)
Definition Sscanf_word (literal s : string) : option string :=
  match strip_prefix literal s with
  | None => None
  | Some rest =>
      match skip_space (String.length rest) rest with
      | None => None
      | Some rest' =>
          match rest' with
          | EmptyString => None
          | String _ _ => Some (read_word (String.length rest') rest')
          end
      end
  end.

(** The literals of [RefRevParseRules[1:]] in front of their [%s]; the
    last rule, [refs/remotes/%s/HEAD], assigns its word before it looks
    for [/HEAD]. *)
Definition RefRevParseRules : list string :=
  ["refs/"; "refs/tags/"; "refs/heads/"; "refs/remotes/"; "refs/remotes/"].

(** [ReferenceName.Short]: every rule is tried in turn on the whole
    name, and the last word assigned is the result. *)
Definition Short (n : string) : string :=
  foldl (fun res literal =>
           match Sscanf_word literal n with
           | Some word => word
           | None => res
           end) n RefRevParseRules.

(** The loop of [findMainBranch]: the short name of the first branch
    called main or master, the empty string when the loop ends without
    one. *)
Fixpoint scan_main (branches : list Reference) : string :=
  match branches with
  | [] => ""
  | br :: rest =>
      if String.eqb (Short (RefName br)) "main" || String.eqb (Short (RefName br)) "master"
      then Short (RefName br)
      else scan_main rest
  end.

Definition errNoBranches : error := "no branches found".

Definition findMainBranch (repo : GitRepository) : string * option Hash * option error :=
  let '(branches, _) := ListBranches repo in
  match branches with
  | [] => ("", None, Some errNoBranches)
  | first :: _ =>
      let branch := scan_main branches in
      let branch := if String.eqb branch "" then Short (RefName first) else branch in
      match ResolveRevision repo branch with
      | Ok revision => (branch, Some revision, None)
      | Err err => (branch, RevisionOnError repo branch, Some err)
      end
  end.

(** ** Changes of a commit: [GetChanges] *)

(** [object.ChangeEntry] of a file: its path, mode and hash; the zero
    value of the Go struct, which stands for "no file", is [None] in a
    [Change]. *)
Record ChangeEntry := mkChangeEntry {
  ceName : string;
  ceMode : FileMode;
  ceHash : Hash
}.

Record Change := mkChange {
  From : option ChangeEntry;
  To : option ChangeEntry
}.

(** [Change.Action] of go-git: what the two sides say. *)
Inductive Action := Insert | Delete | Modify.

Definition ChangeAction (c : Change) : result Action :=
  match From c, To c with
  | None, None => Err "malformed change: empty from and to"
  | None, Some _ => Ok Insert
  | Some _, None => Ok Delete
  | Some _, Some _ => Ok Modify
  end.

(** The files below a node, with their paths. *)
Fixpoint node_files (path : string) (n : TreeNode) : list (string * Hash) :=
  match n with
  | Blob _ h => [(path, h)]
  | Dir entries =>
      (fix go (es : list (string * TreeNode)) : list (string * Hash) :=
         match es with
         | [] => []
         | (name, child) :: rest => node_files (path +:+ "/" +:+ name) child ++ go rest
         end) entries
  end.

Fixpoint tree_files (t : Tree) : list (string * Hash) :=
  match t with
  | [] => []
  | (name, child) :: rest => node_files name child ++ tree_files rest
  end.

Fixpoint file_hash (p : string) (fs : list (string * Hash)) : option Hash :=
  match fs with
  | [] => None
  | (q, h) :: rest => if String.eqb p q then Some h else file_hash p rest
  end.

(** The same files as the entries a change holds. *)
Fixpoint node_entries (path : string) (n : TreeNode) : list ChangeEntry :=
  match n with
  | Blob mode h => [ {| ceName := path; ceMode := mode; ceHash := h |} ]
  | Dir entries =>
      (fix go (es : list (string * TreeNode)) : list ChangeEntry :=
         match es with
         | [] => []
         | (name, child) :: rest => node_entries (path +:+ "/" +:+ name) child ++ go rest
         end) entries
  end.

Fixpoint tree_entries (t : Tree) : list ChangeEntry :=
  match t with
  | [] => []
  | (name, child) :: rest => node_entries name child ++ tree_entries rest
  end.

Definition inserted (e : ChangeEntry) : Change :=
  {| From := None; To := Some e |}.

(** [object.DiffTree] of go-git, a function of the library: from two
    trees, either of which may be nil, to the changes or an error. *)
Abbreviation Differ := (option Tree → option Tree → result (list Change)).

Definition NumParents (c : Commit) : nat := length (Parents c).

Definition errParentNotFound : error := "commit parent not found".

(** [Commit.Parent(i)]. *)
Definition Parent (c : Commit) (i : nat) : result Commit :=
  match Parents c !! i with
  | None => Err errParentNotFound
  | Some r => r
  end.

Definition GetChanges (DiffTree : Differ) (commit : Commit) : result (list Change) :=
  let parentTree : result (option Tree) :=
    match Parent commit 0 with
    | Ok parent =>
        match CommitTree parent with
        | Ok t => Ok (Some t)
        | Err err => Err err
        end
    | Err _ => Ok None
    end in
  match parentTree with
  | Err err => Err err
  | Ok parentTree =>
      match CommitTree commit with
      | Err err => Err err
      | Ok currentTree => DiffTree parentTree (Some currentTree)
      end
  end.

(** ** The HTTP side: requests, response writers, how a handler ends *)

(** [main.Commit], a row of the log page. *)
Record LogCommit := mkLogCommit {
  lcCommit : Commit;
  Subject : string;
  ShortHash : string
}.

(** The values put in the data of a template. *)
Inductive Value :=
| VInt (n : Z)
| VStr (s : string)
| VRefs (rs : list Reference)
| VCommits (cs : list LogCommit).

(** [H], [map[string]interface{}]. *)
Abbreviation H := (gmap string Value).

(** What is written to a response: bytes, or a template run on its
    data (the templates are not part of the program text). *)
Inductive Chunk :=
| Bytes (s : string)
| Page (template : string) (data : H).

(** [http.ResponseWriter]: the header map, the status line once it is
    fixed, and what was written, in order. *)
Record ResponseWriter := mkResponseWriter {
  header : gmap string string;
  status : option Z;
  written : list Chunk
}.

Definition newResponseWriter : ResponseWriter :=
  {| header := ∅; status := None; written := [] |}.

Definition HeaderSet (w : ResponseWriter) (k v : string) : ResponseWriter :=
  {| header := <[k := v]> (header w); status := status w; written := written w |}.

(** [w.WriteHeader(code)]: the first call fixes the status, a later one
    is ignored. *)
Definition WriteHeader (w : ResponseWriter) (code : Z) : ResponseWriter :=
  match status w with
  | None => {| header := header w; status := Some code; written := written w |}
  | Some _ => w
  end.

(** [w.Write]: fixes the status to 200 if it is not fixed yet. *)
Definition Write (w : ResponseWriter) (c : Chunk) : ResponseWriter :=
  {| header := header w;
     status := Some (default 200 (status w));
     written := written w ++ [c] |}.

Definition Fprintf (w : ResponseWriter) (s : string) : ResponseWriter :=
  Write w (Bytes s).

(** The status the client receives when the handler returns. *)
Definition final_status (w : ResponseWriter) : Z := default 200 (status w).

(** How the call of a handler ends: it returns; it panics (the server
    recovers and drops the connection); or it ends the whole process
    ([log.Fatal] is [os.Exit(1)] after the log line). *)
Inductive Outcome :=
| Returns (w : ResponseWriter)
| Panics (w : ResponseWriter)
| Exits (w : ResponseWriter).

Definition process_survives (o : Outcome) : bool :=
  match o with
  | Exits _ => false
  | _ => true
  end.

Record Request := mkRequest {
  params : gmap string string;
  query : gmap string string;
  body : result string
}.

Definition GetParam (r : Request) (name : string) : string :=
  default "" (params r !! name).

(** [r.URL.Query().Get(key)]. *)
Definition QueryGet (r : Request) (key : string) : string :=
  default "" (query r !! key).

Definition Render (w : ResponseWriter) (name : string) (data : H) : ResponseWriter :=
  let w := HeaderSet w "Content-Type" "text/html; charset=utf-8" in
  Write w (Page (name +:+ ".html") data).

(** [sc.Error(w, err)]: [err.Error()] on a nil [err] is a nil
    dereference. *)
Definition Error (w : ResponseWriter) (err : option error) : Outcome :=
  match err with
  | None => Panics w
  | Some e => Returns (Render w "error" {[ "Error" := VStr e ]})
  end.

Definition notFound (w : ResponseWriter) (msg : string) : ResponseWriter :=
  Render w "error" {[ "Status" := VInt 404; "Error" := VStr msg ]}.

(** ** Patches: [PatchView] *)

(** What go-git computes from the blobs of two commits, and [time]'s
    formatting. *)
Record GitLib := mkGitLib {
  PatchString : Commit -> Commit -> result string;
  StatsString : Commit -> result string;
  TimeFormat : Time -> string -> string
}.

(** [plumbing.NewHash]: hashes are kept in their hexadecimal form. *)
Definition NewHash (s : string) : Hash := s.

Definition commitFormatDate : string := "Mon, 2 Jan 2006 15:04:05 -0700".

Definition commitHashStr (c : Commit) : string :=
  "From " +:+ CommitHash c +:+ " Mon Sep 17 00:00:00 2001".
Definition fromHeader (c : Commit) : string :=
  "From: " +:+ AuthorName c +:+ " <" +:+ AuthorEmail c +:+ ">".
Definition dateHeader (lib : GitLib) (c : Commit) : string :=
  "Date: " +:+ TimeFormat lib (AuthorWhen c) commitFormatDate.
Definition subjectHeader (c : Commit) : string :=
  "Subject: [PATCH] " +:+ Message c.

Definition newline : string := String "010"%char EmptyString.

Definition PatchView (lib : GitLib) (sc : Smithy) (w : ResponseWriter) (r : Request)
    : Outcome :=
  let repoName := GetParam r "repo" in
  let '(repo, exists_) := FindRepo sc repoName in
  if negb exists_ then Returns (notFound w "Repository not found") else
  let commitID := GetParam r "hash" in
  if String.eqb commitID "" then Returns (notFound w "Commit not found") else
  let commitHash := NewHash commitID in
  match CommitObject (Repository repo) commitHash with
  | Err _ => Returns (notFound w "Repository not found")
  | Ok commitObj =>
      (* [err] of the lookup above, nil from here on *)
      let err : option error := None in
      if Nat.eqb (NumParents commitObj) 0 then Error w err else
      match Parent commitObj 0 with
      | Err e => Returns (Render w "error" {[ "Error" := VStr e ]})
      | Ok parentCommit =>
      match PatchString lib parentCommit commitObj with
      | Err e => Returns (Render w "error" {[ "Error" := VStr e ]})
      | Ok patch =>
      match StatsString lib commitObj with
      | Err e => Error w (Some e)
      | Ok stats =>
          Returns (Fprintf w
            (commitHashStr commitObj +:+ newline +:+ fromHeader commitObj +:+ newline
             +:+ dateHeader lib commitObj +:+ newline +:+ subjectHeader commitObj
             +:+ newline +:+ "---" +:+ newline +:+ stats +:+ newline +:+ patch))
      end end end
  end.

(** ** The log: [LogView] *)

Definition PAGE_SIZE : nat := 500.

(** [commit.Hash.String()[:8]]: the text of a hash has forty digits, the
    slice is always in range. *)
Definition short_hash (h : Hash) : string := String.substring 0 8 h.

(** The row [LogView] makes of a commit. *)
Definition log_row (commit : Commit) : LogCommit :=
  {| lcCommit := commit;
     Subject := first_line (Message commit);
     ShortHash := short_hash (CommitHash commit) |}.

(** The body of the loop of [LogView] run [fuel] times, [items] being what
    [cIter.Next] still has to give; [None] is the nil dereference of
    [commit.Message] after an error that is not [io.EOF]. *)
Fixpoint log_loop (fuel : nat) (items : list (result Commit)) (commits : list LogCommit)
    : option (list LogCommit) :=
  match fuel with
  | O => Some commits
  | S k =>
      match items with
      | [] => Some commits
      | Err _ :: _ => None
      | Ok commit :: rest => log_loop k rest (commits ++ [log_row commit])
      end
  end.

(** [http.Redirect]: the [Location] header and the status; the link it
    writes as the body of the answer is of no use here and is written as
    no bytes. *)
Definition Redirect (w : ResponseWriter) (url : string) (code : Z) : ResponseWriter :=
  Fprintf (WriteHeader (HeaderSet w "Location" url) code) "".

Definition LogView (sc : Smithy) (w : ResponseWriter) (r : Request) : Outcome :=
  let repoName := GetParam r "repo" in
  let '(repo, exists_) := FindRepo sc repoName in
  if negb exists_ then Returns (notFound w "Repository not found") else
  let refName := GetParam r "ref" in
  if String.eqb refName "" then
    match findMainBranch (Repository repo) with
    | (_, _, Some _) => Returns (notFound w "Repository not found")
    | (defaultBranchName, _, None) =>
        Returns (Redirect w ("/" +:+ repoName +:+ "/log/" +:+ defaultBranchName) 302)
    end
  else
  match ResolveRevision (Repository repo) refName with
  | Err _ => Returns (notFound w "Repository not found")
  | Ok revision =>
  match Log (Repository repo) revision with
  | Err e => Error w (Some e)
  | Ok cIter =>
      match log_loop PAGE_SIZE (ci_items cIter) [] with
      | None => Panics w
      | Some commits =>
          Returns (Render w "log"
            {[ "RepoName" := VStr repoName; "RefName" := VStr refName;
               "Commits" := VCommits commits ]})
      end
  end end.

(** [RefsView]: a failed listing shows as an empty one. *)
Definition RefsView (sc : Smithy) (w : ResponseWriter) (r : Request) : Outcome :=
  let repoName := GetParam r "repo" in
  let '(repo, exists_) := FindRepo sc repoName in
  if negb exists_ then Returns (notFound w "Repository not found") else
  let branches :=
    match ListBranches (Repository repo) with
    | (_, Some _) => []
    | (bs, None) => bs
    end in
  let tags :=
    match ListTags (Repository repo) with
    | (_, Some _) => []
    | (ts, None) => ts
    end in
  Returns (Render w "refs"
    {[ "RepoName" := VStr repoName; "Branches" := VRefs branches; "Tags" := VRefs tags ]}).

(** ** The Smart HTTP bridge: [WriteGitToHttp], [getInfoRefs],
    [uploadPack], [receivePack] *)

Definition offset : Z := 5.

Record GitCommand := mkGitCommand {
  procInput : option string;
  args : list string
}.

(** What running [git] with some arguments and input does: the pipe
    cannot be made, the process cannot be started, or it runs and its
    output is copied, completely or up to a write error. *)
Inductive GitRun :=
| PipeFails (err : error)
| StartFails (err : error)
| Runs (stdout : string) (copyErr : option error).

Abbreviation Exec := (list string -> option string -> GitRun).

Definition WriteGitToHttp (exec : Exec) (w : ResponseWriter) (gitCommand : GitCommand)
    : Outcome :=
  match exec (args gitCommand) (procInput gitCommand) with
  | PipeFails _ => Exits (WriteHeader w 404)
  | StartFails _ => Exits (WriteHeader w 404)
  | Runs stdout (Some _) => Exits (Fprintf w stdout)
  | Runs stdout None => Returns (Fprintf w stdout)
  end.

(** *** [fmt]'s [%.4x] *)

(** [ldigits] of [fmt], and the digit [ldigits[d]]. *)
Definition ldigits : string := "0123456789abcdef".

Definition hex_digit (d : Z) : ascii :=
  default "0"%char (String.get (Z.to_nat d) ldigits).

(** The digits of [u], the last one first in the buffer, as [fmtInteger]
    writes them; [fuel] bounds the number of digits. *)
Fixpoint hex_digits (fuel : nat) (u : Z) (buf : string) : string :=
  match fuel with
  | O => buf
  | S k =>
      if u <? 16 then String (hex_digit u) buf
      else hex_digits k (u / 16) (String (hex_digit (u mod 16)) buf)
  end.

Fixpoint zeros (n : nat) : string :=
  match n with
  | O => EmptyString
  | S k => String "0"%char (zeros k)
  end.

(** [fmt.Sprintf("%.4x", n)] for [n >= 0]: at least four digits. *)
Definition sprintf_x4 (n : Z) : string :=
  let ds := hex_digits (S (Z.to_nat (Z.log2 n))) n EmptyString in
  zeros (4 - String.length ds) +:+ ds.

Definition serviceLine (serviceName : string) : string :=
  "# service=git-" +:+ serviceName.

Definition getInfoRefs (exec : Exec) (sc : Smithy) (w : ResponseWriter) (r : Request)
    : Outcome :=
  let repoName := GetParam r "repo" in
  let '(repo, _) := FindRepo sc repoName in
  let repoPath := Path repo +:+ "" in
  let service := QueryGet r "service" in
  let serviceName := replace_first "git-" "" service in
  let w := HeaderSet w "Content-Type" ("application/x-git-" +:+ serviceName +:+ "-advertisement") in
  let str := serviceLine serviceName in
  let w := Fprintf w (sprintf_x4 (Z.of_nat (String.length str) + offset) +:+ str +:+ newline) in
  let w := Fprintf w "0000" in
  let c := {| procInput := None;
              args := [serviceName; "--stateless-rpc"; "--advertise-refs"; repoPath] |} in
  WriteGitToHttp exec w c.

Definition uploadPack (exec : Exec) (sc : Smithy) (w : ResponseWriter) (r : Request)
    : Outcome :=
  let repoName := GetParam r "repo" in
  let '(repo, _) := FindRepo sc repoName in
  let repoPath := Path repo +:+ "" in
  let w := HeaderSet w "Content-Type" "application/x-git-upload-pack-result" in
  match body r with
  | Err _ => Exits (WriteHeader w 404)
  | Ok requestBody =>
      WriteGitToHttp exec w
        {| procInput := Some requestBody;
           args := ["upload-pack"; "--stateless-rpc"; repoPath] |}
  end.

Definition receivePack (exec : Exec) (sc : Smithy) (w : ResponseWriter) (r : Request)
    : Outcome :=
  let repoName := GetParam r "repo" in
  let '(repo, _) := FindRepo sc repoName in
  let repoPath := Path repo +:+ "" in
  let w := HeaderSet w "Content-Type" "application/x-git-receive-pack-result" in
  match body r with
  | Err _ => Exits (WriteHeader w 404)
  | Ok requestBody =>
      WriteGitToHttp exec w
        {| procInput := Some requestBody;
           args := ["receive-pack"; "--stateless-rpc"; repoPath] |}
  end.

(** ** Properties stated of the program *)

(** A reload of [sc] is atomic for its readers when every map they can
    see is the one before the reload or the one after it. *)
Definition reload_atomic (fs : FileSystem) (sc : Smithy) : Prop :=
  ∀ m, observable fs sc m →
    m = repos sc ∨ m = repos (LoadAllRepositories fs sc).1.

(** What a lookup of [slug] that runs between two statements of a
    reload of [sc] can return. *)
Definition lookup_during_reload (fs : FileSystem) (sc : Smithy) (slug : string)
    (found : RepositoryWithName * bool) : Prop :=
  ∃ n, FindRepo (reload_steps fs n (sc, AtReadDir)).1 slug = found.

(** Lexicographic order of the full names, as the spec words it. *)
Definition name_le (a b : Reference) : Prop :=
  String.leb (RefName a) (RefName b) = true.

Definition sorted_by_name (refs : list Reference) : Prop :=
  Sorted name_le refs.

Abbreviation all_branches := (Forall (λ b : Reference, IsBranch (RefName b) = true)).

(** The repository has a branch with this short name. *)
Definition has_branch (short : string) (branches : list Reference) : bool :=
  existsb (fun b => String.eqb (Short (RefName b)) short) branches.

(** The default-branch policy in the words of the spec: no branch, no
    result; else main, else master, else the first of the sorted list. *)
Definition findDefaultBranch_spec (branches : list Reference) : option string :=
  match branches with
  | [] => None
  | _ :: _ =>
      if has_branch "main" branches then Some "main"
      else if has_branch "master" branches then Some "master"
      else (fun b => Short (RefName b)) <$> head (sort_refs branches)
  end.

(** Among the branches only [refs/heads/main] has the short name main
    and only [refs/heads/master] the short name master.  ([Short] cuts a
    name at white space, so that another name can have these short
    names.) *)
Definition plain_default_names (branches : list Reference) : Prop :=
  ∀ b, b ∈ branches →
    (Short (RefName b) = "main" → RefName b = "refs/heads/main")
    ∧ (Short (RefName b) = "master" → RefName b = "refs/heads/master").

(** What [findMainBranch] gives for the chosen name: the name with the
    result of resolving it. *)
Definition resolved (repo : GitRepository) (found : option string)
    : string * option Hash * option error :=
  match found with
  | None => ("", None, Some errNoBranches)
  | Some branch =>
      match ResolveRevision repo branch with
      | Ok revision => (branch, Some revision, None)
      | Err err => (branch, RevisionOnError repo branch, Some err)
      end
  end.

(** What go-git's [DiffTree] does with the nil tree as its base: every
    file of the other tree is an insertion, in the order of its walk. *)
Definition inserts_all (DiffTree : Differ) : Prop :=
  ∀ t, ∃ changes,
    DiffTree None (Some t) = Ok changes
    ∧ changes ≡ₚ inserted <$> tree_entries t.

(** The response writer a handler leaves. *)
Definition writer_of (o : Outcome) : ResponseWriter :=
  match o with
  | Returns w | Panics w | Exits w => w
  end.

(** The bytes of a response that holds no template output. *)
Fixpoint raw_bytes (cs : list Chunk) : option string :=
  match cs with
  | [] => Some EmptyString
  | Bytes s :: rest => (fun t => s +:+ t) <$> raw_bytes rest
  | Page _ _ :: _ => None
  end.

(** Reading a lowercase hexadecimal number: the value of a digit is its
    place in [ldigits]. *)
Fixpoint place_of (c : ascii) (digits : string) (i : Z) : option Z :=
  match digits with
  | EmptyString => None
  | String x rest => if Ascii.eqb c x then Some i else place_of c rest (i + 1)
  end.

Definition digit_value (c : ascii) : option Z := place_of c ldigits 0.

Fixpoint parse_hex (acc : Z) (s : string) : option Z :=
  match s with
  | EmptyString => Some acc
  | String c s' =>
      match digit_value c with
      | Some d => parse_hex (acc * 16 + d) s'
      | None => None
      end
  end.

Definition hex_value (s : string) : option Z := parse_hex 0 s.

(** The advertisement the spec asks of [info/refs] for the query value
    [service]: four lowercase hexadecimal digits that give the length of
    the service line plus 5, the line, a newline, the flush packet. *)
Definition advertisement_ok (service : string) (w : ResponseWriter) : Prop :=
  let line := serviceLine (replace_first "git-" "" service) in
  ∃ pkt rest,
    String.length pkt = 4%nat
    ∧ hex_value pkt = Some (Z.of_nat (String.length line) + 5)
    ∧ raw_bytes (written w) = Some (pkt +:+ line +:+ newline +:+ "0000" +:+ rest).

(** [s] holds the parts [ps] one after the other, in this order. *)
Inductive in_order : list string → string → Prop :=
| in_order_nil s : in_order [] s
| in_order_cons p ps before after :
    in_order ps after → in_order (p :: ps) (before +:+ p +:+ after).

(** What follows the leftmost occurrence of [p] in [s]. *)
Fixpoint after_first (p s : string) : option string :=
  match s with
  | EmptyString => if String.prefix p EmptyString then Some EmptyString else None
  | String _ s' =>
      if String.prefix p s then Some (string_drop (String.length p) s)
      else after_first p s'
  end.

Fixpoint in_orderb (ps : list string) (s : string) : bool :=
  match ps with
  | [] => true
  | p :: ps' =>
      match after_first p s with
      | None => false
      | Some rest => in_orderb ps' rest
      end
  end.

(** The text a handler has sent when it returns. *)
Definition envelope (o : Outcome) : option string :=
  match o with
  | Returns w => raw_bytes (written w)
  | _ => None
  end.

(** The order of the parts of a patch as the spec lists them, and as
    [PatchView] writes them. *)
Definition envelope_parts_spec (lib : GitLib) (c : Commit) (stats patch : string)
    : list string :=
  [commitHashStr c; fromHeader c; dateHeader lib c; subjectHeader c; stats; "---"; patch].

Definition envelope_parts (lib : GitLib) (c : Commit) (stats patch : string)
    : list string :=
  [commitHashStr c; fromHeader c; dateHeader lib c; subjectHeader c; "---"; stats; patch].

(** The caller is told "not found": the status line says 404, or the
    error page is shown with the status 404. *)
Definition is_404_page (c : Chunk) : bool :=
  match c with
  | Page "error.html" data =>
      match data !! "Status" with
      | Some (VInt 404) => true
      | _ => false
      end
  | _ => false
  end.

Definition answers_404 (o : Outcome) : bool :=
  match o with
  | Returns w =>
      match status w with
      | Some 404 => true
      | _ => existsb is_404_page (written w)
      end
  | _ => false
  end.

(** The caller is told of an error: the error page is among what was
    sent. *)
Definition is_error_page (c : Chunk) : bool :=
  match c with
  | Page "error.html" _ => true
  | _ => false
  end.

Definition answers_error (o : Outcome) : bool :=
  match o with
  | Returns w => existsb is_error_page (written w)
  | _ => false
  end.

(** The iterator of the log gives an error that is not [io.EOF] within
    the page. *)
Definition page_fails (items : list (result Commit)) : bool :=
  existsb (fun item => negb (is_ok item)) (take PAGE_SIZE items).

(** The commits among [items]. *)
Definition commits_of (items : list (result Commit)) : list Commit :=
  flat_map (fun item => match item with Ok c => [c] | Err _ => [] end) items.

(** ** Fixtures *)

(** A store with no references and no objects. *)
Definition emptyRepository : GitRepository :=
  {| IterReferences := Ok {| ri_refs := []; ri_end := None |};
     ResolveRevision := fun _ => Err "reference not found";
     RevisionOnError := fun _ => Some ZeroHash;
     CommitObject := fun _ => Err "object not found";
     Log := fun _ => Err "object not found" |}.

(** A root directory with the single repository [a]. *)
Definition fs_one : FileSystem :=
  {| ReadDir := fun _ => Ok ["a"];
     pathJoin := fun dir name => dir +:+ "/" +:+ name;
     PlainOpen := fun _ => Ok emptyRepository |}.

(** A registry loaded from [fs_one] before. *)
Definition sc_one : Smithy :=
  {| Root := "/srv/git"; Title := "t"; Description := "d";
     repos := {[ "a" := {| Name := "a"; Path := "/srv/git/a"; Repository := emptyRepository |} ]} |}.

Definition branch (short : string) : Reference :=
  {| RefName := "refs/heads/" +:+ short; RefTarget := "0123456789abcdef0123456789abcdef01234567" |}.

(** A store that resolves every name and whose reference iterator gives
    [refs] and then ends with [ending]. *)
Definition repo_with (refs : list Reference) (ending : option error) : GitRepository :=
  {| IterReferences := Ok {| ri_refs := refs; ri_end := ending |};
     ResolveRevision := fun _ => Ok "0123456789abcdef0123456789abcdef01234567";
     RevisionOnError := fun _ => Some ZeroHash;
     CommitObject := fun _ => Err "object not found";
     Log := fun _ => Err "object not found" |}.

(** Its iterator gives two branches and then fails. *)
Definition repo_failing_iter : GitRepository :=
  repo_with [branch "zeta"; branch "alpha"] (Some "cannot read reference").

Definition hash_root : Hash := "1111111111111111111111111111111111111111".
Definition hash_child : Hash := "2222222222222222222222222222222222222222".

Definition epoch : Time := {| unix_seconds := 0; zone_offset := 0 |}.

(** A first commit: no parent, a tree with two files, one in a
    directory. *)
Definition root_commit : Commit :=
  {| CommitHash := hash_root;
     AuthorName := "Ada"; AuthorEmail := "ada@example.org"; AuthorWhen := epoch;
     Message := "first";
     Parents := [];
     CommitTree := Ok [("README", Blob Regular "aa"); ("src", Dir [("main.go", Blob Regular "bb")])] |}.

(** Its child, which changes [README]. *)
Definition child_commit : Commit :=
  {| CommitHash := hash_child;
     AuthorName := "Ada"; AuthorEmail := "ada@example.org"; AuthorWhen := epoch;
     Message := "second";
     Parents := [Ok root_commit];
     CommitTree := Ok [("README", Blob Regular "cc"); ("src", Dir [("main.go", Blob Regular "bb")])] |}.

(** A differ for loaded trees: the files of [a] that [b] lacks or has
    with another mode or hash, then the files of [b] that [a] lacks. *)
Fixpoint entry_at (p : string) (es : list ChangeEntry) : option ChangeEntry :=
  match es with
  | [] => None
  | e :: rest => if String.eqb p (ceName e) then Some e else entry_at p rest
  end.

#[global] Instance FileMode_eq_dec : EqDecision FileMode.
Proof. solve_decision. Defined.

#[global] Instance ChangeEntry_eq_dec : EqDecision ChangeEntry.
Proof. solve_decision. Defined.

Definition diff_by_path : Differ := fun a b =>
  let fa := tree_entries (default [] a) in
  let fb := tree_entries (default [] b) in
  Ok (flat_map (fun e =>
                  match entry_at (ceName e) fb with
                  | None => [ {| From := Some e; To := None |} ]
                  | Some e' => if decide (e = e') then []
                               else [ {| From := Some e; To := Some e' |} ]
                  end) fa
      ++ flat_map (fun e =>
                  match entry_at (ceName e) fa with
                  | None => [inserted e]
                  | Some _ => []
                  end) fb).

(** A first commit whose tree object cannot be read. *)
Definition root_commit_no_tree : Commit :=
  {| CommitHash := hash_root;
     AuthorName := "Ada"; AuthorEmail := "ada@example.org"; AuthorWhen := epoch;
     Message := "first";
     Parents := [];
     CommitTree := Err "object not found" |}.

Definition store_commit (h : Hash) : result Commit :=
  if String.eqb h hash_root then Ok root_commit
  else if String.eqb h hash_child then Ok child_commit
  else Err "object not found".

(** A repository with the two commits on its branch main; [log_items] is
    what the iterator of its log gives. *)
Definition repo_two (log_items : list (result Commit)) : GitRepository :=
  {| IterReferences := Ok {| ri_refs := [{| RefName := "refs/heads/main"; RefTarget := hash_child |}];
                             ri_end := None |};
     ResolveRevision := fun _ => Ok hash_child;
     RevisionOnError := fun _ => Some ZeroHash;
     CommitObject := store_commit;
     Log := fun _ => Ok {| ci_items := log_items |} |}.

Definition sc_two (log_items : list (result Commit)) : Smithy :=
  {| Root := "/srv/git"; Title := "t"; Description := "d";
     repos := {[ "proj" := {| Name := "proj"; Path := "/srv/git/proj";
                              Repository := repo_two log_items |} ]} |}.

Definition stats_text : string :=
  " README | 2 +-" +:+ newline +:+ " 1 file changed, 1 insertion(+), 1 deletion(-)" +:+ newline.

Definition patch_text : string :=
  "diff --git a/README b/README" +:+ newline +:+
  "--- a/README" +:+ newline +:+ "+++ b/README" +:+ newline +:+
  "@@ -1 +1 @@" +:+ newline +:+ "-old" +:+ newline +:+ "+new" +:+ newline.

Definition lib_fix : GitLib :=
  {| PatchString := fun _ _ => Ok patch_text;
     StatsString := fun _ => Ok stats_text;
     TimeFormat := fun _ _ => "Thu, 1 Jan 1970 00:00:00 +0000" |}.

Definition request (repo hash ref service : string) (payload : string) : Request :=
  {| params := {[ "repo" := repo; "hash" := hash; "ref" := ref ]};
     query := {[ "service" := service ]};
     body := Ok payload |}.

(** [git] cannot be started. *)
Definition exec_no_git : Exec := fun _ _ => StartFails "exec: git: not found".

(** [git] runs and prints nothing. *)
Definition exec_silent : Exec := fun _ _ => Runs "" None.

Fixpoint string_repeat (c : ascii) (n : nat) : string :=
  match n with
  | O => EmptyString
  | S k => String c (string_repeat c k)
  end.

(** A service name of 65517 bytes. *)
Definition long_service : string := "git-" +:+ string_repeat "a" (Z.to_nat 65517).

(** ** Further code of the program *)

(** *** The registry: [RepositoryByName], [GetRepositories], [Reload] *)

Definition RepositoryByName_Less (a b : RepositoryWithName) : bool :=
  String.ltb (Name a) (Name b).

(** The order [sort.Sort(RepositoryByName(repos))] leaves. *)
Definition repo_le (a b : RepositoryWithName) : Prop :=
  RepositoryByName_Less b a = false.

#[global] Instance repo_le_dec : RelDecision repo_le.
Proof. intros a b. unfold repo_le. apply _. Defined.

(** The body of [GetRepositories] once the [range] over the map has
    visited the handles in the order [visited] (Go fixes no order). *)
Definition sorted_repositories (visited : list RepositoryWithName)
    : list RepositoryWithName :=
  merge_sort repo_le visited.

Definition GetRepositories (sc : Smithy) : list RepositoryWithName :=
  sorted_repositories (snd <$> map_to_list (repos sc)).

(** Every handle of the registry is stored under its own name. *)
Definition registry_ok (sc : Smithy) : Prop :=
  ∀ slug rwn, repos sc !! slug = Some rwn → Name rwn = slug.

(** [Reload]: the error of [LoadAllRepositories] is dropped; the request
    is not read. *)
Definition Reload (fs : FileSystem) (sc : Smithy) (w : ResponseWriter)
    : Smithy * Outcome :=
  let '(sc, _) := LoadAllRepositories fs sc in
  (sc, Returns (Fprintf w "done")).

(** *** The readme: [GetReadmeFromCommit] *)

(** [object.File]: the path asked for and the blob found there. *)
Record File := mkFile {
  fileName : string;
  fileBlob : Hash
}.

Definition errFileNotFound : error := "file not found".

(** [Commit.File(path)]: the tree of the commit, then the file at [path]
    in it; a directory at [path] is no file. *)
Definition CommitFile (commit : Commit) (path : string) : result File :=
  match CommitTree commit with
  | Err err => Err err
  | Ok tree =>
      match file_hash path (tree_files tree) with
      | Some h => Ok {| fileName := path; fileBlob := h |}
      | None => Err errFileNotFound
      end
  end.

Definition readme_options : list string :=
  ["readme"; "README"; "readme.md"; "README.md"; "readme.txt"; "README.txt";
   "readme.markdown"; "README.markdown"].

Definition errNoReadme : error := "no valid readme".

(** The loop of [GetReadmeFromCommit] over the names still to try. *)
Fixpoint first_readme (commit : Commit) (options : list string) : result File :=
  match options with
  | [] => Err errNoReadme
  | opt :: rest =>
      match CommitFile commit opt with
      | Ok f => Ok f
      | Err _ => first_readme commit rest
      end
  end.

Definition GetReadmeFromCommit (commit : Commit) : result File :=
  first_readme commit readme_options.

(** *** Formatting changes: [PatchHTML], [FormatChanges] *)

(** What the encoder of the program leaves in its buffer for a patch,
    and the error it ends with, if any. *)
Record Encoded := mkEncoded {
  encBuffer : string;
  encError : option error
}.

(** [PatchHTML]: an error of the encoder is printed and the buffer
    returned all the same. *)
Definition PatchHTML (p : Encoded) : string := encBuffer p.

Definition changeSeparator : string := newline +:+ newline +:+ newline +:+ newline.

(** The loop of [FormatChanges]; [patchOf] is [Change.Patch] of go-git
    followed by the encoder. *)
Fixpoint format_loop (patchOf : Change → result Encoded) (changes : list Change)
    (s : list string) : result (list string) :=
  match changes with
  | [] => Ok s
  | change :: rest =>
      match patchOf change with
      | Err err => Err err
      | Ok patch => format_loop patchOf rest (s ++ [PatchHTML patch])
      end
  end.

Definition FormatChanges (patchOf : Change → result Encoded) (changes : list Change)
    : result string :=
  match format_loop patchOf changes [] with
  | Err err => Err err
  | Ok s => Ok (String.concat changeSeparator s)
  end.

(** *** Creating a project: [NewProject] *)

(** What [NewProject] reads of its request: the method and
    [r.FormValue], which is empty for a missing key. *)
Record FormRequest := mkFormRequest {
  Method : string;
  FormValue : string → string
}.

(** [NewProject]; [init] is [git.PlainInit] and [join] is
    [filepath.Join].  After a failed [PlainInit] the handler goes on. *)
Definition NewProject (init : string → bool → option error)
    (join : string → string → string)
    (sc : Smithy) (w : ResponseWriter) (r : FormRequest) : Outcome :=
  if String.eqb (Method r) "GET" then Returns (Render w "new" ∅) else
  let repoName := FormValue r "name" in
  let repoPath := join (Root sc) repoName in
  let w :=
    match init repoPath true with
    | Some err => Render w "error" {[ "Status" := VInt 500; "Error" := VStr err ]}
    | None => w
    end in
  Returns (Fprintf w repoName).

(** *** Importing a project: [ImportProject] *)

(** [ImportProject], for a [Smithy] whose map a reload has made;
    [clone] is [git.PlainClone] with the address as the URL of its
    options, [join] is [filepath.Join], and [fs] is the file system as
    the reload at the end of the handler finds it. *)
Definition ImportProject (clone : string → bool → string → result GitRepository)
    (join : string → string → string) (fs : FileSystem)
    (sc : Smithy) (w : ResponseWriter) (r : FormRequest) : Smithy * Outcome :=
  if String.eqb (Method r) "GET" then (sc, Returns (Render w "import" ∅)) else
  let name := FormValue r "name" in
  let bare := FormValue r "bare" in
  let address := FormValue r "git" in
  let repoPath := join (Root sc) name in
  let isBare := String.eqb bare "on" in
  match clone repoPath isBare address with
  | Err err =>
      (sc, Returns (Render w "error" {[ "Status" := VInt 500; "Error" := VStr err ]}))
  | Ok repo =>
      let rwn := {| Name := name; Path := repoPath; Repository := repo |} in
      Reload fs (AddRepository sc rwn) w
  end.

(** *** Properties *)

Definition is_panic (o : Outcome) : bool :=
  match o with
  | Panics _ => true
  | _ => false
  end.

(** The text has no line feed. *)
Fixpoint one_line (s : string) : bool :=
  match s with
  | EmptyString => true
  | String c s' => negb (Ascii.eqb c "010"%char) && one_line s'
  end.

(** *** More fixtures *)

(** A commit whose parent is named but cannot be loaded. *)
Definition orphan_commit : Commit :=
  {| CommitHash := hash_child;
     AuthorName := "Ada"; AuthorEmail := "ada@example.org"; AuthorWhen := epoch;
     Message := "second";
     Parents := [Err "object not found"];
     CommitTree := Ok [("README", Blob Regular "cc")] |}.

(** A root directory with a repository and a plain directory. *)
Definition fs_two : FileSystem :=
  {| ReadDir := fun _ => Ok ["notes"; "proj"];
     pathJoin := fun dir name => dir +:+ "/" +:+ name;
     PlainOpen := fun p => if String.eqb p "/srv/git/proj" then Ok emptyRepository
                           else Err "repository does not exist" |}.

(** The root directory cannot be read. *)
Definition fs_unreadable : FileSystem :=
  {| ReadDir := fun _ => Err "permission denied";
     pathJoin := fun dir name => dir +:+ "/" +:+ name;
     PlainOpen := fun _ => Err "repository does not exist" |}.

(** * Theorems *)

(** ** The registry *)

Lemma reload_steps_snoc fs n st :
  reload_steps fs (S n) st = reload_step fs (reload_steps fs n st).
Proof.
  revert st. induction n as [|n IH]; intros st; [reflexivity|].
  change (reload_steps fs (S (S n)) st) with (reload_steps fs (S n) (reload_step fs st)).
  rewrite IH. reflexivity.
Qed.

Lemma load_entries_snoc fs root files f :
  load_entries fs root (files ++ [f])
  = load_entry fs root (load_entries fs root files) f.
Proof. unfold load_entries. by rewrite foldl_app. Qed.

(** The states of a reload whose directory listing [files] succeeded. *)
Inductive reload_inv (fs : FileSystem) (sc : Smithy) : Smithy * ReloadPoint → Prop :=
| inv_start : reload_inv fs sc (sc, AtReadDir)
| inv_failed e :
    ReadDir fs (Root sc) = Err e →
    reload_inv fs sc (sc, AfterReturn (Some e))
| inv_loop files k :
    ReadDir fs (Root sc) = Ok files →
    (k ≤ length files)%nat →
    reload_inv fs sc
      (set_repos sc (load_entries fs (Root sc) (take k files)), InLoop (drop k files))
| inv_done files :
    ReadDir fs (Root sc) = Ok files →
    reload_inv fs sc
      (set_repos sc (load_entries fs (Root sc) files), AfterReturn None).

Lemma reload_inv_step fs sc st :
  reload_inv fs sc st → reload_inv fs sc (reload_step fs st).
Proof.
  intros Hinv. destruct Hinv as [|e He|files k Hfiles Hk|files Hfiles]; simpl.
  - destruct (ReadDir fs (Root sc)) as [files|e] eqn:Hrd.
    + apply (inv_loop fs sc files 0%nat Hrd). lia.
    + by apply inv_failed.
  - by apply inv_failed.
  - destruct (drop k files) as [|f rest] eqn:Hdrop.
    + assert (length files ≤ k)%nat as Hge.
      { apply (f_equal length) in Hdrop. rewrite length_drop in Hdrop. simpl in Hdrop. lia. }
      rewrite take_ge by done. by apply inv_done.
    + assert (files !! k = Some f) as Hlk.
      { rewrite <- (Nat.add_0_r k), <- lookup_drop, Hdrop. reflexivity. }
      pose proof (inv_loop fs sc files (S k) Hfiles) as Hnext.
      rewrite (take_S_r _ _ _ Hlk), load_entries_snoc in Hnext.
      assert (drop (S k) files = rest) as Hrest.
      { pose proof (drop_S _ _ _ Hlk) as Hd. rewrite Hdrop in Hd. congruence. }
      rewrite Hrest in Hnext.
      apply Hnext. apply lookup_lt_Some in Hlk. lia.
  - by apply inv_done.
Qed.

Lemma reload_inv_steps fs sc n :
  reload_inv fs sc (reload_steps fs n (sc, AtReadDir)).
Proof.
  induction n as [|n IH]; [constructor|].
  rewrite reload_steps_snoc. by apply reload_inv_step.
Qed.

(** After the listing and [k] turns of the loop the map holds the first
    [k] entries. *)
Lemma reload_steps_prefix fs sc files k :
  ReadDir fs (Root sc) = Ok files →
  (k ≤ length files)%nat →
  reload_steps fs (S k) (sc, AtReadDir)
  = (set_repos sc (load_entries fs (Root sc) (take k files)), InLoop (drop k files)).
Proof.
  intros Hrd. induction k as [|k IH]; intros Hk.
  - simpl. rewrite Hrd. by rewrite drop_0.
  - rewrite reload_steps_snoc, IH by lia.
    destruct (lookup_lt_is_Some_2 files k) as [f Hf]; [lia|].
    rewrite (drop_S _ _ _ Hf), (take_S_r _ _ _ Hf), load_entries_snoc. reflexivity.
Qed.

(** The function is the run of its statements to the end. *)
Lemma LoadAllRepositories_steps fs sc :
  ∃ n, reload_steps fs n (sc, AtReadDir)
       = ((LoadAllRepositories fs sc).1, AfterReturn (LoadAllRepositories fs sc).2).
Proof.
  unfold LoadAllRepositories.
  destruct (ReadDir fs (Root sc)) as [files|e] eqn:Hrd.
  - exists (S (S (length files))).
    rewrite reload_steps_snoc, (reload_steps_prefix fs sc files (length files) Hrd) by lia.
    rewrite drop_all, firstn_all. reflexivity.
  - exists 1%nat. simpl. by rewrite Hrd.
Qed.

(** ** The order of strings *)

Lemma ascii_compare_refl c : Ascii.compare c c = Eq.
Proof. unfold Ascii.compare. apply N.compare_refl. Qed.

Lemma string_compare_refl s : String.compare s s = Eq.
Proof. induction s as [|c s IH]; simpl; [done|]. by rewrite ascii_compare_refl. Qed.

Lemma string_compare_not_gt_trans s t u :
  String.compare s t ≠ Gt → String.compare t u ≠ Gt → String.compare s u ≠ Gt.
Proof.
  revert t u. induction s as [|a s IH]; intros [|b t] [|c u]; simpl; try congruence.
  unfold Ascii.compare.
  destruct (N.compare_spec (N_of_ascii a) (N_of_ascii b)) as [Hab|Hab|Hab];
    destruct (N.compare_spec (N_of_ascii b) (N_of_ascii c)) as [Hbc|Hbc|Hbc];
    try congruence; intros H1 H2.
  - rewrite Hab, Hbc, N.compare_refl. by apply (IH t u).
  - rewrite Hab. apply N.compare_lt_iff in Hbc. by rewrite Hbc.
  - rewrite <- Hbc. apply N.compare_lt_iff in Hab. by rewrite Hab.
  - assert (N_of_ascii a < N_of_ascii c)%N as Hac by lia.
    apply N.compare_lt_iff in Hac. by rewrite Hac.
Qed.

Lemma ref_le_name_le a b : ref_le a b ↔ name_le a b.
Proof.
  unfold ref_le, name_le, ReferenceByName_Less, String.ltb, String.leb.
  rewrite (String.compare_antisym (RefName a) (RefName b)).
  destruct (String.compare (RefName b) (RefName a)); simpl; split; congruence.
Qed.

#[global] Instance ref_le_total : Total ref_le.
Proof.
  intros a b. rewrite !ref_le_name_le. unfold name_le.
  destruct (String.leb_total (RefName a) (RefName b)); auto.
Qed.

#[global] Instance ref_le_trans : Transitive ref_le.
Proof.
  intros a b c. rewrite !ref_le_name_le. unfold name_le, String.leb.
  intros H1 H2.
  pose proof (string_compare_not_gt_trans (RefName a) (RefName b) (RefName c)) as Ht.
  destruct (String.compare (RefName a) (RefName b)); try discriminate;
    destruct (String.compare (RefName b) (RefName c)); try discriminate;
    destruct (String.compare (RefName a) (RefName c)); try reflexivity;
    exfalso; apply Ht; congruence.
Qed.

(** ** Listing references *)

Section sorted_mono.
Context {A : Type} (R R' : relation A).
Hypothesis R_R' : ∀ a b, R a b → R' a b.

Lemma Sorted_mono l : Sorted R l → Sorted R' l.
Proof.
  induction 1 as [|x l _ IH Hhd]; constructor; [done|].
  destruct Hhd; constructor; auto.
Qed.

Lemma StronglySorted_mono l : StronglySorted R l → StronglySorted R' l.
Proof.
  induction 1 as [|x l _ IH Hall]; constructor; [done|].
  eapply Forall_impl; eauto.
Qed.
End sorted_mono.

Lemma sort_refs_sorted refs : sorted_by_name (sort_refs refs).
Proof.
  unfold sorted_by_name, sort_refs.
  apply (Sorted_mono ref_le); [intros a b; apply ref_le_name_le|].
  apply (Sorted_merge_sort ref_le).
Qed.

Lemma sort_refs_strongly_sorted refs : StronglySorted name_le (sort_refs refs).
Proof.
  unfold sort_refs.
  apply (StronglySorted_mono ref_le); [intros a b; apply ref_le_name_le|].
  apply (StronglySorted_merge_sort ref_le).
Qed.

Lemma sort_refs_perm refs : sort_refs refs ≡ₚ refs.
Proof. apply merge_sort_Permutation. Qed.

Lemma collect_refs_spec pending ending refs :
  collect_refs pending ending refs
  = match ending with
    | None => (sort_refs (refs ++ pending), None)
    | Some err => (refs ++ pending, Some err)
    end.
Proof.
  revert refs. induction pending as [|b rest IH]; intros refs; simpl.
  - rewrite app_nil_r. by destruct ending.
  - rewrite IH, <- app_assoc. reflexivity.
Qed.

Lemma ReferenceCollector_spec it :
  ReferenceCollector it
  = match ri_end it with
    | None => (sort_refs (ri_refs it), None)
    | Some err => (ri_refs it, Some err)
    end.
Proof. unfold ReferenceCollector. by rewrite collect_refs_spec. Qed.

Lemma ReferenceCollector_sorted it refs :
  ReferenceCollector it = (refs, None) → sorted_by_name refs.
Proof.
  rewrite ReferenceCollector_spec. destruct (ri_end it); [discriminate|].
  intros [= <-]. apply sort_refs_sorted.
Qed.

(** The maps a reader can see between two statements of a reload: the
    map from before the reload, and the maps built from the first [k]
    entries of the directory (the empty map for [k = 0], the complete new
    one for the last [k]). *)
Lemma reload_shows_prefixes (fs : FileSystem) (sc : Smithy)
    (m : gmap string RepositoryWithName) :
  observable fs sc m ↔
    m = repos sc ∨
    ∃ files k, ReadDir fs (Root sc) = Ok files
               ∧ m = load_entries fs (Root sc) (take k files).
Proof.
  split.
  - intros [n <-].
    destruct (reload_inv_steps fs sc n) as [|e He|files k Hfiles Hk|files Hfiles]; simpl.
    + by left.
    + by left.
    + right. by exists files, k.
    + right. exists files, (length files). by rewrite firstn_all.
  - intros [->|(files & k & Hrd & ->)].
    + by exists 0%nat.
    + exists (S (k `min` length files)).
      rewrite (reload_steps_prefix fs sc files _ Hrd) by lia. simpl.
      f_equal. destruct (Nat.min_spec k (length files)) as [[? ->]|[? ->]]; [done|].
      by rewrite firstn_all, take_ge.
Qed.

Lemma FindRepo_repos sc sc' slug :
  repos sc = repos sc' → FindRepo sc slug = FindRepo sc' slug.
Proof. unfold FindRepo. by intros ->. Qed.

(** C2, as the code has it: a lookup ([FindRepo]) that runs between two
    statements of a reload returns what it returns on the registry from
    before the reload, or what it returns on the registry built from
    the first [k] entries of the directory, for some [k]: the empty
    registry for [k = 0], the complete new one for the last [k]; and each
    of these answers can be had. *)
Theorem FindRepo_during_reload (fs : FileSystem) (sc : Smithy) (slug : string)
    (found : RepositoryWithName * bool) :
  lookup_during_reload fs sc slug found ↔
    found = FindRepo sc slug ∨
    ∃ files k, ReadDir fs (Root sc) = Ok files
               ∧ found = FindRepo (set_repos sc (load_entries fs (Root sc) (take k files))) slug.
Proof.
  split.
  - intros [n <-].
    destruct (proj1 (reload_shows_prefixes fs sc _) (ex_intro _ n eq_refl))
      as [Hold|(files & k & Hrd & Hprefix)].
    + left. by apply FindRepo_repos.
    + right. exists files, k. split; [done|]. by apply FindRepo_repos.
  - intros [->|(files & k & Hrd & ->)].
    + by exists 0%nat.
    + destruct (proj2 (reload_shows_prefixes fs sc
                         (load_entries fs (Root sc) (take k files)))) as [n Hn].
      { right. by exists files, k. }
      exists n. by apply FindRepo_repos.
Qed.

(** During a reload of [sc_one] from a directory that still holds its
    repository [a], a lookup of [a] can fail. *)
Lemma FindRepo_during_reload_witness :
  lookup_during_reload fs_one sc_one "a" (zeroRepositoryWithName, false).
Proof.
  apply (proj2 (FindRepo_during_reload fs_one sc_one "a" (zeroRepositoryWithName, false))).
  right. exists ["a"], 0%nat. split; reflexivity.
Defined.

(** C2 as stated fails: while [sc_one] is reloaded from a directory that
    still holds its repository, a reader can see the empty map, which is
    neither the old map nor the new one. *)
Lemma reload_not_atomic : ¬ reload_atomic fs_one sc_one.
Proof.
  intros Hatomic.
  assert (observable fs_one sc_one ∅) as Hobs by (by exists 1%nat).
  destruct (Hatomic ∅ Hobs) as [Heq|Heq];
    apply (f_equal (λ m : gmap string RepositoryWithName, m !! "a")) in Heq;
    vm_compute in Heq; discriminate.
Qed.

(** ** The reference listings *)

(** C9, as the code has it: a listing that reports no error is sorted by
    full name; when the iterator ends in an error the listing is that
    error with the references read so far, in the order they were read. *)
Theorem listing_sorted_without_error (r : GitRepository) :
  (∀ refs, ListBranches r = (refs, None) ∨ ListTags r = (refs, None) →
           sorted_by_name refs)
  ∧ (∀ it e, IterReferences r = Ok it → ri_end it = Some e →
       ListBranches r = (ri_refs (filtered IsBranch it), Some e)
       ∧ ListTags r = (ri_refs (filtered IsTag it), Some e)).
Proof.
  split.
  - intros refs. unfold ListBranches, ListTags, Branches, Tags.
    destruct (IterReferences r) as [it|e]; [|intros [?|?]; discriminate].
    intros [Hc|Hc]; by apply ReferenceCollector_sorted in Hc.
  - intros it e Hit He. unfold ListBranches, ListTags, Branches, Tags.
    rewrite Hit, !ReferenceCollector_spec. simpl. by rewrite He.
Qed.

Lemma listing_sorted_without_error_witness :
  sorted_by_name [branch "alpha"; branch "zeta"].
Proof.
  apply (proj1 (listing_sorted_without_error
                  (repo_with [branch "zeta"; branch "alpha"] None))).
  left. reflexivity.
Defined.

(** C9 as stated fails: when the iterator fails after two branches, what
    [ListBranches] returns is not sorted. *)
Lemma listing_unsorted_on_error :
  ¬ sorted_by_name (ListBranches repo_failing_iter).1.
Proof.
  intros Hs. vm_compute in Hs.
  inversion Hs as [|? ? _ Hhd]; subst.
  inversion Hhd as [|? ? Hle]; subst.
  vm_compute in Hle. discriminate.
Qed.

(** ** The default branch *)

Lemma has_branch_perm short l l' :
  l ≡ₚ l' → has_branch short l = has_branch short l'.
Proof.
  intros Hp. apply Bool.eq_true_iff_eq. unfold has_branch.
  rewrite !existsb_exists.
  split; intros (x & Hin & Hx); exists x; split; try done.
  - by apply (Permutation_in _ Hp).
  - by apply (Permutation_in _ (Permutation_sym Hp)).
Qed.

Lemma filter_all_branches refs :
  all_branches (List.filter (λ r, IsBranch (RefName r)) refs).
Proof. apply Forall_forall. intros x Hx. apply list_elem_of_In, filter_In in Hx. tauto. Qed.

Lemma plain_default_names_perm l l' :
  l ≡ₚ l' → plain_default_names l → plain_default_names l'.
Proof. intros Hp Hl b Hb. apply Hl. by rewrite Hp. Qed.

(** In a list sorted by full name [refs/heads/main] comes before
    [refs/heads/master]: the loop of [findMainBranch] stops at main when
    there is one. *)
Lemma scan_main_sorted l :
  plain_default_names l → StronglySorted name_le l →
  scan_main l = if has_branch "main" l then "main"
                else if has_branch "master" l then "master" else "".
Proof.
  induction l as [|x l IH]; [done|].
  intros Hplain Hsorted.
  apply StronglySorted_cons in Hsorted as [Hle Hsorted].
  assert (plain_default_names l) as Hplain'.
  { intros b Hb. apply Hplain. apply elem_of_cons. by right. }
  simpl. destruct (String.eqb (Short (RefName x)) "main") eqn:Hmain; simpl.
  { by apply String.eqb_eq in Hmain. }
  destruct (String.eqb (Short (RefName x)) "master") eqn:Hmaster; simpl.
  - apply String.eqb_eq in Hmaster. rewrite Hmaster.
    destruct (has_branch "main" l) eqn:Hhas; [exfalso|done].
    apply existsb_exists in Hhas as (y & Hy & Hyname).
    apply String.eqb_eq in Hyname.
    apply list_elem_of_In in Hy.
    pose proof (proj1 (Forall_forall _ _) Hle y Hy) as Hxy.
    destruct (Hplain x) as [_ Hx]; [apply elem_of_cons; by left|].
    destruct (Hplain' y Hy) as [Hyb _].
    unfold name_le in Hxy.
    rewrite (Hx Hmaster), (Hyb Hyname) in Hxy. vm_compute in Hxy. discriminate.
  - by apply IH.
Qed.

(** C4, as the code has it: when the branches of the repository can be
    read to the end, and only [refs/heads/main] and [refs/heads/master]
    have the short names main and master, [findMainBranch] fails with
    "no branches found" exactly when there is no branch, and otherwise
    chooses main, else master, else the first branch of the sorted list;
    the chosen name comes with what resolving it gives, the hash or the
    error and the pointer go-git returns with it. *)
Theorem findMainBranch_policy (r : GitRepository) (it : ReferenceIter) :
  IterReferences r = Ok it → ri_end it = None →
  plain_default_names (ri_refs (filtered IsBranch it)) →
  findMainBranch r
  = resolved r (findDefaultBranch_spec (ri_refs (filtered IsBranch it))).
Proof.
  intros Hit Hend Hplain. unfold findMainBranch, ListBranches, Branches.
  rewrite Hit, ReferenceCollector_spec. simpl ri_end. rewrite Hend.
  set (bs := ri_refs (filtered IsBranch it)) in *.
  pose proof (sort_refs_perm bs) as Hperm.
  pose proof (sort_refs_strongly_sorted bs) as Hsorted.
  assert (plain_default_names (sort_refs bs)) as Hplain'.
  { by apply (plain_default_names_perm bs). }
  pose proof (scan_main_sorted _ Hplain' Hsorted) as Hscan.
  rewrite !(has_branch_perm _ _ _ Hperm) in Hscan.
  unfold findDefaultBranch_spec.
  destruct (sort_refs bs) as [|first rest] eqn:Hs.
  - apply Permutation_nil in Hperm. by rewrite Hperm.
  - destruct bs as [|b bs'] eqn:Hbs.
    { symmetry in Hperm. by apply Permutation_nil in Hperm. }
    rewrite Hscan.
    destruct (has_branch "main" (b :: bs')); [done|].
    destruct (has_branch "master" (b :: bs')); done.
Qed.

Lemma findMainBranch_policy_witness :
  findMainBranch (repo_with [branch "zeta"; branch "master"; branch "main"] None)
  = ("main", Some "0123456789abcdef0123456789abcdef01234567", None).
Proof.
  apply (findMainBranch_policy
           (repo_with [branch "zeta"; branch "master"; branch "main"] None)
           {| ri_refs := [branch "zeta"; branch "master"; branch "main"];
              ri_end := None |} eq_refl eq_refl).
  intros b Hb. apply list_elem_of_In in Hb. simpl in Hb.
  destruct Hb as [<-|[<-|[<-|[]]]]; split; intros Hshort;
    vm_compute in Hshort; first [discriminate Hshort | reflexivity].
Defined.

(** C4 as stated fails: the iterator of [repo_failing_iter] gives the
    branches zeta and alpha and then an error, which [findMainBranch]
    drops; the policy asks for alpha, the function chooses zeta. *)
Lemma findMainBranch_after_iterator_error :
  findDefaultBranch_spec [branch "zeta"; branch "alpha"] = Some "alpha"
  ∧ (findMainBranch repo_failing_iter).1.1 = "zeta"
  ∧ findMainBranch repo_failing_iter
    ≠ resolved repo_failing_iter (findDefaultBranch_spec [branch "zeta"; branch "alpha"]).
Proof. split; [reflexivity|]. split; [reflexivity|]. vm_compute. discriminate. Qed.

(** A name that [Short] cuts at white space: the branch after
    [refs/heads/master] is called no-break space, main; its short name
    is main, the policy asks for it, and the loop stops at master, which
    comes first in the order of the full names. *)
Example findMainBranch_white_space_in_name :
  let odd := "refs/heads/" +:+ String "194"%char (String "160"%char "main") in
  let repo := repo_with [branch "master"; {| RefName := odd; RefTarget := hash_child |}] None in
  Short odd = "main"
  ∧ findDefaultBranch_spec [branch "master"; {| RefName := odd; RefTarget := hash_child |}]
    = Some "main"
  ∧ (findMainBranch repo).1.1 = "master".
Proof. repeat split; reflexivity. Qed.

(** When the chosen name does not resolve, the name is returned with the
    error and with the pointer that came with it. *)
Example findMainBranch_unresolved :
  findMainBranch
    {| IterReferences := Ok {| ri_refs := [branch "dev"]; ri_end := None |};
       ResolveRevision := fun _ => Err "reference not found";
       RevisionOnError := fun _ => Some ZeroHash;
       CommitObject := fun _ => Err "object not found";
       Log := fun _ => Err "object not found" |}
  = ("dev", Some ZeroHash, Some "reference not found").
Proof. reflexivity. Qed.

(** ** Changes of a commit *)

Lemma diff_by_path_inserts_all : inserts_all diff_by_path.
Proof.
  intros t. eexists. split; [reflexivity|]. simpl.
  induction (tree_entries t) as [|e es IH]; [done|]. simpl. by f_equiv.
Qed.

Lemma inserted_are_insertions (changes : list Change) (es : list ChangeEntry) :
  changes ≡ₚ inserted <$> es →
  Forall (λ ch, ChangeAction ch = Ok Insert ∧ is_Some (To ch)) changes.
Proof.
  intros Hperm. apply Forall_forall. intros ch Hch. rewrite Hperm in Hch.
  apply list_elem_of_fmap in Hch as (e & -> & _). split; [done|]. by eexists.
Qed.

(** C7, as the code has it: for a commit without parents whose tree can
    be read, [GetChanges] gives go-git's [DiffTree] the nil tree as the
    base; with it, every file of the commit's tree being an insertion
    against the nil tree, [GetChanges] succeeds and its changes are the
    files of the tree, each one once and as an insertion: no "from" side,
    the file as the "to" side. *)
Theorem GetChanges_root_commit (DiffTree : Differ) (commit : Commit) (t : Tree) :
  inserts_all DiffTree →
  NumParents commit = 0%nat → CommitTree commit = Ok t →
  GetChanges DiffTree commit = DiffTree None (Some t)
  ∧ ∃ changes,
      GetChanges DiffTree commit = Ok changes
      ∧ changes ≡ₚ inserted <$> tree_entries t
      ∧ Forall (λ ch, ChangeAction ch = Ok Insert ∧ is_Some (To ch)) changes.
Proof.
  intros Hdiff Hnum Htree.
  assert (GetChanges DiffTree commit = DiffTree None (Some t)) as Hget.
  { unfold GetChanges, Parent.
    apply nil_length_inv in Hnum. by rewrite Hnum, Htree. }
  split; [done|].
  destruct (Hdiff t) as (changes & Hchanges & Hperm).
  exists changes. rewrite Hget. split; [done|]. split; [done|].
  by apply (inserted_are_insertions _ (tree_entries t)).
Qed.

Lemma GetChanges_root_commit_witness :
  GetChanges diff_by_path root_commit
  = Ok [ {| From := None; To := Some (mkChangeEntry "README" Regular "aa") |};
         {| From := None; To := Some (mkChangeEntry "src/main.go" Regular "bb") |} ].
Proof.
  rewrite (proj1 (GetChanges_root_commit diff_by_path root_commit
                    [("README", Blob Regular "aa"); ("src", Dir [("main.go", Blob Regular "bb")])]
                    diff_by_path_inserts_all eq_refl eq_refl)).
  reflexivity.
Defined.

(** C7 as stated fails: [root_commit_no_tree] has no parent, and
    [GetChanges] fails for it whatever [DiffTree] does, because its tree
    cannot be read. *)
Lemma GetChanges_root_commit_unreadable_tree :
  NumParents root_commit_no_tree = 0%nat
  ∧ ∀ DiffTree : Differ, GetChanges DiffTree root_commit_no_tree = Err "object not found".
Proof. split; reflexivity. Qed.

(** ** The log *)

Lemma log_loop_spec fuel items commits :
  log_loop fuel items commits
  = if existsb (fun item => negb (is_ok item)) (take fuel items) then None
    else Some (commits ++ map log_row (commits_of (take fuel items))).
Proof.
  revert items commits. induction fuel as [|fuel IH]; intros items commits.
  - simpl. by rewrite app_nil_r.
  - destruct items as [|[c|e] rest]; simpl.
    + by rewrite app_nil_r.
    + rewrite IH. destruct (existsb _ _); [done|]. by rewrite <- app_assoc.
    + done.
Qed.

(** C10: once the repository, the revision and the iterator are there,
    [LogView] panics on a nil commit exactly when the iterator gives an
    error other than [io.EOF] among its first 500 answers; otherwise it
    shows the commits of the page. *)
Theorem LogView_iterator_error (sc : Smithy) (w : ResponseWriter) (r : Request)
    (repo : RepositoryWithName) (revision : Hash) (cIter : CommitIter) :
  FindRepo sc (GetParam r "repo") = (repo, true) →
  GetParam r "ref" ≠ "" →
  ResolveRevision (Repository repo) (GetParam r "ref") = Ok revision →
  Log (Repository repo) revision = Ok cIter →
  LogView sc w r
  = if page_fails (ci_items cIter) then Panics w
    else Returns (Render w "log"
           {[ "RepoName" := VStr (GetParam r "repo");
              "RefName" := VStr (GetParam r "ref");
              "Commits" := VCommits (map log_row (commits_of (take PAGE_SIZE (ci_items cIter)))) ]}).
Proof.
  intros Hrepo Href Hrev Hlog. unfold LogView. rewrite Hrepo.
  cbv beta iota delta [negb].
  apply String.eqb_neq in Href. rewrite Href, Hrev, Hlog.
  rewrite log_loop_spec. unfold page_fails.
  by destruct (existsb _ _).
Qed.

Lemma LogView_iterator_error_witness :
  LogView (sc_two [Ok child_commit; Err "object not found"]) newResponseWriter
    (request "proj" "" "main" "" "")
  = Panics newResponseWriter.
Proof.
  apply (LogView_iterator_error
           (sc_two [Ok child_commit; Err "object not found"]) newResponseWriter
           (request "proj" "" "main" "" "")
           {| Name := "proj"; Path := "/srv/git/proj";
              Repository := repo_two [Ok child_commit; Err "object not found"] |}
           hash_child {| ci_items := [Ok child_commit; Err "object not found"] |}).
  - reflexivity.
  - discriminate.
  - reflexivity.
  - reflexivity.
Defined.

Example LogView_whole_log :
  ∃ w, LogView (sc_two [Ok child_commit; Ok root_commit]) newResponseWriter
         (request "proj" "" "main" "" "") = Returns w
       ∧ written w = [Page "log.html"
           {[ "RepoName" := VStr "proj"; "RefName" := VStr "main";
              "Commits" := VCommits [log_row child_commit; log_row root_commit] ]}].
Proof. eexists. split; reflexivity. Qed.

(** ** The Smart HTTP bridge and unknown repositories *)

Lemma FindRepo_unknown sc slug :
  (FindRepo sc slug).2 = false → FindRepo sc slug = (zeroRepositoryWithName, false).
Proof. unfold FindRepo. by destruct (repos sc !! slug). Qed.

(** C1, what the code does: when the pipe cannot be made or [git] cannot
    be started, [WriteGitToHttp] sets the status 404 and then ends the
    process with [log.Fatal]; the serving process does not keep
    running. *)
Theorem WriteGitToHttp_failure_exits (exec : Exec) (w : ResponseWriter)
    (gitCommand : GitCommand) (err : error) :
  exec (args gitCommand) (procInput gitCommand) = PipeFails err
  ∨ exec (args gitCommand) (procInput gitCommand) = StartFails err →
  WriteGitToHttp exec w gitCommand = Exits (WriteHeader w 404)
  ∧ process_survives (WriteGitToHttp exec w gitCommand) = false.
Proof.
  intros Hfail. unfold WriteGitToHttp.
  destruct Hfail as [-> | ->]; split; reflexivity.
Qed.

Lemma WriteGitToHttp_failure_exits_witness :
  process_survives
    (WriteGitToHttp exec_no_git newResponseWriter
       {| procInput := Some ""; args := ["upload-pack"; "--stateless-rpc"; "/srv/git/proj"] |})
  = false.
Proof.
  apply (proj2 (WriteGitToHttp_failure_exits exec_no_git newResponseWriter
                  {| procInput := Some "";
                     args := ["upload-pack"; "--stateless-rpc"; "/srv/git/proj"] |}
                  "exec: git: not found" (or_intror eq_refl))).
Defined.

(** The same through the endpoint: one [upload-pack] request while [git]
    cannot be started ends the server. *)
Example uploadPack_without_git :
  uploadPack exec_no_git (sc_two []) newResponseWriter (request "proj" "" "" "" "0000")
  = Exits (WriteHeader
             (HeaderSet newResponseWriter "Content-Type" "application/x-git-upload-pack-result")
             404).
Proof. reflexivity. Qed.

Lemma bridge_never_404 exec w gitCommand :
  status w ≠ Some 404 → existsb is_404_page (written w) = false →
  answers_404 (WriteGitToHttp exec w gitCommand) = false.
Proof.
  intros Hst Hw. unfold WriteGitToHttp.
  destruct (exec _ _) as [e|e|out [e|]]; try reflexivity.
  simpl. rewrite existsb_app, Hw. simpl.
  destruct (status w) as [code|]; simpl; [|reflexivity].
  destruct code as [|p|p]; try reflexivity.
  destruct (decide (p = 404%positive)) as [->|Hne]; [congruence|].
  repeat (destruct p as [p|p|]; try reflexivity). congruence.
Qed.

(** C8, what the code does: for a repository name that is not in the
    registry the browsing handlers show the error page with status 404,
    while [getInfoRefs], [uploadPack] and [receivePack] drop the result
    of the lookup, run [git] on the empty path and never answer 404. *)
Theorem unknown_repository_answers (lib : GitLib) (exec : Exec) (sc : Smithy) (r : Request) :
  (FindRepo sc (GetParam r "repo")).2 = false →
  answers_404 (PatchView lib sc newResponseWriter r) = true
  ∧ answers_404 (LogView sc newResponseWriter r) = true
  ∧ answers_404 (RefsView sc newResponseWriter r) = true
  ∧ answers_404 (getInfoRefs exec sc newResponseWriter r) = false
  ∧ answers_404 (uploadPack exec sc newResponseWriter r) = false
  ∧ answers_404 (receivePack exec sc newResponseWriter r) = false.
Proof.
  intros Hunknown. apply FindRepo_unknown in Hunknown.
  unfold PatchView, LogView, RefsView, getInfoRefs, uploadPack, receivePack.
  rewrite Hunknown. cbv beta iota delta [negb].
  repeat split; try reflexivity.
  - by apply bridge_never_404.
  - destruct (body r); [by apply bridge_never_404 | reflexivity].
  - destruct (body r); [by apply bridge_never_404 | reflexivity].
Qed.

Lemma unknown_repository_answers_witness :
  answers_404 (getInfoRefs exec_silent (sc_two []) newResponseWriter
                 (request "nosuch" "" "" "git-upload-pack" "")) = false.
Proof.
  apply (unknown_repository_answers lib_fix exec_silent (sc_two [])
           (request "nosuch" "" "" "git-upload-pack" "") eq_refl).
Defined.

(** What the client of [info/refs] gets for an unknown repository: the
    status 200 and the advertisement, from [git] run on the empty path. *)
Example getInfoRefs_unknown_repository :
  getInfoRefs exec_silent (sc_two []) newResponseWriter
    (request "nosuch" "" "" "git-upload-pack" "")
  = Returns
      {| header := {[ "Content-Type" := "application/x-git-upload-pack-advertisement" ]};
         status := Some 200;
         written := [Bytes ("001e# service=git-upload-pack" +:+ newline); Bytes "0000"; Bytes ""] |}.
Proof. reflexivity. Qed.

(** ** Patches *)

(** C5, what the code does: for a commit without parents [PatchView]
    calls [sc.Error] with the nil error of the commit lookup, and the
    handler panics on [err.Error()]; no error reaches the caller. *)
Theorem PatchView_root_commit_panics (lib : GitLib) (sc : Smithy) (w : ResponseWriter)
    (r : Request) (repo : RepositoryWithName) (commitObj : Commit) :
  FindRepo sc (GetParam r "repo") = (repo, true) →
  GetParam r "hash" ≠ "" →
  CommitObject (Repository repo) (NewHash (GetParam r "hash")) = Ok commitObj →
  NumParents commitObj = 0%nat →
  PatchView lib sc w r = Panics w
  ∧ answers_error (PatchView lib sc w r) = false.
Proof.
  intros Hrepo Hhash Hcommit Hnum. unfold PatchView.
  rewrite Hrepo. cbv beta iota delta [negb].
  apply String.eqb_neq in Hhash. rewrite Hhash, Hcommit, Hnum.
  split; reflexivity.
Qed.

Lemma PatchView_root_commit_panics_witness :
  PatchView lib_fix (sc_two []) newResponseWriter (request "proj" hash_root "" "" "")
  = Panics newResponseWriter.
Proof.
  apply (proj1 (PatchView_root_commit_panics lib_fix (sc_two []) newResponseWriter
                  (request "proj" hash_root "" "" "")
                  {| Name := "proj"; Path := "/srv/git/proj"; Repository := repo_two [] |}
                  root_commit eq_refl ltac:(discriminate) eq_refl eq_refl)).
Defined.

(** *** Parts of a text, in order *)

Lemma append_cons c s t : String c s +:+ t = String c (s +:+ t).
Proof. reflexivity. Qed.

Lemma append_nil_r s : s +:+ "" = s.
Proof. induction s as [|c s IH]; [done|]. by rewrite append_cons, IH. Qed.

Lemma append_assoc s t u : (s +:+ t) +:+ u = s +:+ t +:+ u.
Proof. induction s as [|c s IH]; [done|]. by rewrite !append_cons, IH. Qed.

Lemma prefix_nil s : String.prefix "" s = true.
Proof. by destruct s. Qed.

Lemma prefix_append p s : String.prefix p (p +:+ s) = true.
Proof.
  induction p as [|c p IH]; [apply prefix_nil|].
  rewrite append_cons. cbn [String.prefix]. by destruct (ascii_dec c c).
Qed.

Lemma string_drop_append p s : string_drop (String.length p) (p +:+ s) = s.
Proof. induction p as [|c p IH]; [done|]. exact IH. Qed.

Lemma string_drop_append_l n s t :
  (n ≤ String.length s)%nat → string_drop n (s +:+ t) = string_drop n s +:+ t.
Proof.
  revert s. induction n as [|n IH]; intros s Hn; [done|].
  destruct s as [|c s]; simpl in Hn; [lia|].
  rewrite append_cons. cbn [string_drop]. apply IH. lia.
Qed.

Lemma length_append s t :
  String.length (s +:+ t) = (String.length s + String.length t)%nat.
Proof. induction s as [|c s IH]; [done|]. rewrite append_cons. cbn [String.length]. by rewrite IH. Qed.

(** The leftmost occurrence of [p] ends no later than any other. *)
Lemma after_first_occurrence p before after :
  ∃ x, after_first p (before +:+ p +:+ after) = Some (x +:+ after).
Proof.
  induction before as [|c before IH].
  - change ("" +:+ p +:+ after) with (p +:+ after).
    destruct p as [|a p].
    + change ("" +:+ after) with after. exists "". by destruct after.
    + rewrite append_cons. cbn [after_first].
      rewrite <- append_cons, prefix_append, string_drop_append. by exists "".
  - change (String c before +:+ p +:+ after) with (String c (before +:+ p +:+ after)).
    cbn [after_first].
    destruct (String.prefix p (String c (before +:+ p +:+ after))) eqn:Hp; [|exact IH].
    exists (string_drop (String.length p) (String c (before +:+ p))).
    change (String c (before +:+ p +:+ after)) with (String c before +:+ p +:+ after).
    rewrite <- append_assoc.
    rewrite string_drop_append_l; [done|].
    rewrite length_append. lia.
Qed.

Lemma in_orderb_complete ps s :
  in_order ps s → ∀ x, in_orderb ps (x +:+ s) = true.
Proof.
  induction 1 as [s|p ps before after _ IH]; intros x; [done|].
  cbn [in_orderb]. rewrite <- append_assoc.
  destruct (after_first_occurrence p (x +:+ before) after) as [y ->].
  apply IH.
Qed.

Lemma in_orderb_false ps s : in_orderb ps s = false → ¬ in_order ps s.
Proof.
  intros Hb Hin. apply in_orderb_complete with (x := "") in Hin.
  change ("" +:+ s) with s in Hin. congruence.
Qed.

Lemma in_order_here p ps after :
  in_order ps after → in_order (p :: ps) (p +:+ after).
Proof. intros Hin. exact (in_order_cons p ps "" after Hin). Qed.

(** C6, as the code has it: when the parent, the patch and the diffstat
    of a commit with one parent are there, the text [PatchView] sends is
    the "From " line with the fixed date, the [From:], [Date:] and
    [Subject: [PATCH]] headers, the [---] line, the diffstat and then the
    diff, each on a line of its own: the separator comes before the
    diffstat. *)
Theorem PatchView_envelope (lib : GitLib) (sc : Smithy) (r : Request)
    (repo : RepositoryWithName) (commitObj parentCommit : Commit) (stats patch : string) :
  FindRepo sc (GetParam r "repo") = (repo, true) →
  GetParam r "hash" ≠ "" →
  CommitObject (Repository repo) (NewHash (GetParam r "hash")) = Ok commitObj →
  NumParents commitObj = 1%nat →
  Parent commitObj 0 = Ok parentCommit →
  PatchString lib parentCommit commitObj = Ok patch →
  StatsString lib commitObj = Ok stats →
  ∃ text,
    envelope (PatchView lib sc newResponseWriter r) = Some text
    ∧ text = commitHashStr commitObj +:+ newline +:+ fromHeader commitObj +:+ newline
             +:+ dateHeader lib commitObj +:+ newline +:+ subjectHeader commitObj
             +:+ newline +:+ "---" +:+ newline +:+ stats +:+ newline +:+ patch
    ∧ in_order (envelope_parts lib commitObj stats patch) text.
Proof.
  intros Hrepo Hhash Hcommit Hnum Hparent Hpatch Hstats.
  eexists. split; [|split; [reflexivity|]].
  - unfold PatchView. rewrite Hrepo. cbv beta iota delta [negb].
    apply String.eqb_neq in Hhash.
    rewrite Hhash, Hcommit, Hnum, Hparent, Hpatch, Hstats.
    cbn [Nat.eqb envelope Fprintf Write written newResponseWriter app raw_bytes fmap option_fmap option_map].
    by rewrite append_nil_r.
  - unfold envelope_parts.
    apply in_order_here, in_order_cons, in_order_cons, in_order_cons, in_order_cons,
      in_order_cons.
    rewrite <- (append_nil_r patch) at 2.
    apply in_order_cons, in_order_nil.
Qed.

Lemma PatchView_envelope_witness :
  ∃ text,
    envelope (PatchView lib_fix (sc_two []) newResponseWriter
                (request "proj" hash_child "" "" "")) = Some text
    ∧ in_order (envelope_parts lib_fix child_commit stats_text patch_text) text.
Proof.
  destruct (PatchView_envelope lib_fix (sc_two []) (request "proj" hash_child "" "" "")
              {| Name := "proj"; Path := "/srv/git/proj"; Repository := repo_two [] |}
              child_commit root_commit stats_text patch_text
              eq_refl ltac:(discriminate) eq_refl eq_refl eq_refl eq_refl eq_refl)
    as (text & Htext & _ & Horder).
  by exists text.
Defined.

(** C6 as stated fails: in the patch of [child_commit] the diffstat does
    not come before the [---] line. *)
Lemma PatchView_envelope_not_spec_order :
  ∃ text,
    envelope (PatchView lib_fix (sc_two []) newResponseWriter
                (request "proj" hash_child "" "" "")) = Some text
    ∧ ¬ in_order (envelope_parts_spec lib_fix child_commit stats_text patch_text) text.
Proof.
  eexists. split; [reflexivity|].
  apply in_orderb_false. vm_compute. reflexivity.
Qed.

(** ** The advertisement of [info/refs] *)

Lemma digit_value_hex_digit d : 0 ≤ d < 16 → digit_value (hex_digit d) = Some d.
Proof.
  intros Hd. rewrite <- (Z2Nat.id d) by lia.
  assert (Z.to_nat d < 16)%nat as Hn by lia.
  generalize dependent (Z.to_nat d). intros n Hn.
  do 16 (destruct n as [|n]; [reflexivity|]). lia.
Qed.

Lemma digit_value_bound c d : digit_value c = Some d → 0 ≤ d < 16.
Proof.
  intros Hd.
  destruct c as [[] [] [] [] [] [] [] []]; cbv in Hd;
    first [discriminate Hd | injection Hd as <-; lia].
Qed.

Lemma parse_hex_cons acc c s d :
  digit_value c = Some d → parse_hex acc (String c s) = parse_hex (acc * 16 + d) s.
Proof. intros Hd. simpl. by rewrite Hd. Qed.

(** Reading back what [hex_digits] writes in front of a buffer [buf] of
    [L] digits worth [v]. *)
Lemma parse_hex_digits fuel : ∀ u buf L v,
  (∀ acc, parse_hex acc buf = Some (acc * 16 ^ L + v)) →
  0 ≤ L → 0 ≤ u < 16 ^ Z.of_nat fuel →
  ∃ L', 0 ≤ L' ∧ ∀ acc, parse_hex acc (hex_digits fuel u buf) = Some (acc * 16 ^ L' + (u * 16 ^ L + v)).
Proof.
  induction fuel as [|fuel IH]; intros u buf L v Hbuf HL Hu.
  { simpl in Hu. assert (u = 0) as -> by lia. exists L. split; [done|].
    intros acc. simpl. rewrite Hbuf. f_equal; lia. }
  cbn [hex_digits]. destruct (Z.ltb_spec u 16) as [Hlt|Hge].
  - exists (L + 1). split; [lia|]. intros acc.
    rewrite (parse_hex_cons _ _ _ u) by (apply digit_value_hex_digit; lia).
    rewrite Hbuf, Z.pow_add_r by lia. f_equal. lia.
  - assert (0 ≤ u mod 16 < 16) as Hmod by (apply Z.mod_pos_bound; lia).
    destruct (IH (u / 16) (String (hex_digit (u mod 16)) buf) (L + 1)
                ((u mod 16) * 16 ^ L + v)) as (L' & HL' & Hparse).
    + intros acc. rewrite (parse_hex_cons _ _ _ (u mod 16)) by by apply digit_value_hex_digit.
      rewrite Hbuf, Z.pow_add_r by lia. f_equal. lia.
    + lia.
    + split; [apply Z.div_pos; lia|].
      apply Z.div_lt_upper_bound; [lia|].
      rewrite Nat2Z.inj_succ, Z.pow_succ_r in Hu by lia. lia.
    + exists L'. split; [done|]. intros acc. rewrite Hparse. f_equal.
      rewrite Z.pow_add_r by lia.
      pose proof (Z.div_mod u 16 ltac:(lia)) as Hdm. nia.
Qed.

Lemma parse_hex_zeros k s : parse_hex 0 (zeros k +:+ s) = parse_hex 0 s.
Proof. induction k as [|k IH]; [done|]. exact IH. Qed.

Lemma hex_fuel_enough n : 0 ≤ n → n < 16 ^ Z.of_nat (S (Z.to_nat (Z.log2 n))).
Proof.
  intros Hn. pose proof (Z.log2_nonneg n) as Hlog.
  rewrite Nat2Z.inj_succ, Z2Nat.id by done.
  destruct (decide (n = 0)) as [->|Hne].
  { apply Z.pow_pos_nonneg; lia. }
  pose proof (Z.log2_spec n ltac:(lia)) as [_ Hup].
  eapply Z.lt_le_trans; [exact Hup|].
  apply Z.pow_le_mono_l. lia.
Qed.

(** [%.4x] writes the number: reading its digits gives it back. *)
Lemma hex_value_sprintf_x4 n : 0 ≤ n → hex_value (sprintf_x4 n) = Some n.
Proof.
  intros Hn. unfold hex_value, sprintf_x4. rewrite parse_hex_zeros.
  destruct (parse_hex_digits (S (Z.to_nat (Z.log2 n))) n "" 0 0) as (L' & _ & Hparse).
  - intros acc. simpl. f_equal. lia.
  - done.
  - split; [done|]. by apply hex_fuel_enough.
  - rewrite Hparse. f_equal. lia.
Qed.

Lemma hex_digits_length fuel : ∀ u buf (k : nat),
  (1 ≤ k)%nat → 0 ≤ u < 16 ^ Z.of_nat k →
  (String.length (hex_digits fuel u buf) ≤ String.length buf + k)%nat.
Proof.
  induction fuel as [|fuel IH]; intros u buf k Hk Hu; cbn [hex_digits]; [lia|].
  destruct (Z.ltb_spec u 16) as [Hlt|Hge]; [simpl; lia|].
  destruct k as [|k]; [lia|].
  assert (1 ≤ k)%nat as Hk'.
  { destruct k; [|lia]. simpl in Hu. lia. }
  etrans; [apply (IH (u / 16) _ k Hk')|simpl; lia].
  split; [apply Z.div_pos; lia|].
  apply Z.div_lt_upper_bound; [lia|].
  rewrite Nat2Z.inj_succ, Z.pow_succ_r in Hu by lia. lia.
Qed.

Lemma length_zeros k : String.length (zeros k) = k.
Proof. induction k as [|k IH]; [done|]. simpl. by rewrite IH. Qed.

(** Below 65536 the prefix has exactly four digits. *)
Lemma length_sprintf_x4 n : 0 ≤ n < 65536 → String.length (sprintf_x4 n) = 4%nat.
Proof.
  intros Hn. unfold sprintf_x4.
  pose proof (hex_digits_length (S (Z.to_nat (Z.log2 n))) n "" 4 ltac:(lia) ltac:(simpl; lia)) as Hlen.
  simpl String.length in Hlen at 2.
  rewrite length_append, length_zeros. lia.
Qed.

Lemma hex_value_four_digits pkt n :
  String.length pkt = 4%nat → hex_value pkt = Some n → 0 ≤ n < 65536.
Proof.
  destruct pkt as [|c1 [|c2 [|c3 [|c4 [|c5 pkt]]]]]; try discriminate.
  intros _. unfold hex_value. simpl.
  destruct (digit_value c1) as [d1|] eqn:H1; [|discriminate].
  destruct (digit_value c2) as [d2|] eqn:H2; [|discriminate].
  destruct (digit_value c3) as [d3|] eqn:H3; [|discriminate].
  destruct (digit_value c4) as [d4|] eqn:H4; [|discriminate].
  apply digit_value_bound in H1, H2, H3, H4.
  intros [= <-]. lia.
Qed.

(** C3, as the code has it: when the service line with its 5 extra bytes
    stays below 65536, [getInfoRefs] first sends four lowercase
    hexadecimal digits that give the length of the line plus 5, then the
    line, a newline and the flush packet [0000]. *)
Theorem getInfoRefs_advertisement (exec : Exec) (sc : Smithy) (r : Request) :
  Z.of_nat (String.length (serviceLine (replace_first "git-" "" (QueryGet r "service"))))
    + offset < 65536 →
  advertisement_ok (QueryGet r "service")
    (writer_of (getInfoRefs exec sc newResponseWriter r)).
Proof.
  intros Hlen. unfold advertisement_ok.
  set (line := serviceLine (replace_first "git-" "" (QueryGet r "service"))) in *.
  exists (sprintf_x4 (Z.of_nat (String.length line) + offset)).
  assert (∃ rest, raw_bytes (written (writer_of (getInfoRefs exec sc newResponseWriter r)))
                  = Some ((sprintf_x4 (Z.of_nat (String.length line) + offset) +:+ line +:+ newline)
                          +:+ "0000" +:+ rest)) as [rest Hraw].
  { unfold getInfoRefs. destruct (FindRepo sc (GetParam r "repo")) as [repo found].
    fold line. unfold WriteGitToHttp.
    destruct (exec _ _) as [e|e|out [e|]]; by eexists. }
  exists rest. split; [|split].
  - apply length_sprintf_x4. unfold offset in *. lia.
  - apply hex_value_sprintf_x4. unfold offset. lia.
  - rewrite Hraw. by rewrite !append_assoc.
Qed.

Lemma getInfoRefs_advertisement_witness :
  advertisement_ok "git-upload-pack"
    (writer_of (getInfoRefs exec_silent (sc_two []) newResponseWriter
                  (request "proj" "" "" "git-upload-pack" ""))).
Proof.
  apply (getInfoRefs_advertisement exec_silent (sc_two [])
           (request "proj" "" "" "git-upload-pack" "")).
  vm_compute. reflexivity.
Defined.

Example getInfoRefs_upload_pack :
  raw_bytes (written (writer_of
    (getInfoRefs exec_silent (sc_two []) newResponseWriter
       (request "proj" "" "" "git-upload-pack" ""))))
  = Some ("001e# service=git-upload-pack" +:+ newline +:+ "0000").
Proof. reflexivity. Qed.

(** C3 as stated fails: for a service name of 65517 bytes the line plus 5
    is 65536, which no four digits give; the prefix written is
    [10000]. *)
Lemma getInfoRefs_long_service :
  sprintf_x4 (Z.of_nat (String.length (serviceLine (replace_first "git-" "" long_service)))
              + offset) = "10000"
  ∧ ¬ advertisement_ok long_service
        (writer_of (getInfoRefs exec_silent (sc_two []) newResponseWriter
                      (request "proj" "" "" long_service ""))).
Proof.
  split; [by vm_compute|].
  intros (pkt & rest & Hlen & Hval & _).
  apply (hex_value_four_digits _ _ Hlen) in Hval.
  vm_compute in Hval. destruct Hval as [_ Hlt]. discriminate.
Qed.

(** * Further properties *)

(** ** The registry *)

Lemma load_entries_lookup fs root files slug :
  load_entries fs root files !! slug
  = if decide (slug ∈ files) then
      match PlainOpen fs (pathJoin fs root slug) with
      | Ok r => Some {| Name := slug; Path := pathJoin fs root slug; Repository := r |}
      | Err _ => None
      end
    else None.
Proof.
  induction files as [|f files IH] using rev_ind.
  { rewrite decide_False by set_solver. apply lookup_empty. }
  rewrite load_entries_snoc. unfold load_entry at 1.
  destruct (decide (f = slug)) as [->|Hne].
  - rewrite (decide_True (P := slug ∈ files ++ [slug])) by set_solver.
    destruct (PlainOpen fs (pathJoin fs root slug)) as [r|e] eqn:Hopen.
    + by rewrite lookup_insert_eq.
    + rewrite IH. by destruct (decide (slug ∈ files)).
  - assert (load_entry fs root (load_entries fs root files) f !! slug
            = load_entries fs root files !! slug) as Hsame.
    { unfold load_entry. destruct (PlainOpen fs (pathJoin fs root f)); [|done].
      by rewrite lookup_insert_ne. }
    unfold load_entry in Hsame. rewrite Hsame, IH.
    destruct (decide (slug ∈ files)) as [Hin|Hnin].
    + rewrite decide_True by set_solver. done.
    + rewrite decide_False; [done|].
      rewrite elem_of_app, list_elem_of_singleton. intros [?|?]; [done|congruence].
Qed.

(** X1: after a reload that could list the root directory, a name is
    found exactly when it is an entry of the directory that opens as a
    repository; the handle found has that name, the joined path and the
    opened repository.  What the registry held before plays no part. *)
Theorem LoadAllRepositories_lookup (fs : FileSystem) (sc : Smithy)
    (files : list string) (slug : string) :
  ReadDir fs (Root sc) = Ok files →
  FindRepo (LoadAllRepositories fs sc).1 slug
  = if decide (slug ∈ files) then
      match PlainOpen fs (pathJoin fs (Root sc) slug) with
      | Ok r => ({| Name := slug; Path := pathJoin fs (Root sc) slug; Repository := r |}, true)
      | Err _ => (zeroRepositoryWithName, false)
      end
    else (zeroRepositoryWithName, false).
Proof.
  intros Hrd. unfold LoadAllRepositories, FindRepo. rewrite Hrd. simpl.
  rewrite load_entries_lookup.
  destruct (decide (slug ∈ files)); [|done].
  by destruct (PlainOpen fs (pathJoin fs (Root sc) slug)).
Qed.

Lemma LoadAllRepositories_lookup_witness :
  (FindRepo (LoadAllRepositories fs_two sc_one).1 "proj").2 = true
  ∧ (FindRepo (LoadAllRepositories fs_two sc_one).1 "notes").2 = false
  ∧ (FindRepo (LoadAllRepositories fs_two sc_one).1 "a").2 = false.
Proof.
  rewrite !(LoadAllRepositories_lookup fs_two sc_one ["notes"; "proj"] _ eq_refl).
  repeat split; reflexivity.
Defined.

Lemma load_entries_ok fs root files slug rwn :
  load_entries fs root files !! slug = Some rwn → Name rwn = slug.
Proof.
  rewrite load_entries_lookup.
  destruct (decide (slug ∈ files)); [|done].
  destruct (PlainOpen fs (pathJoin fs root slug)); [|done].
  by intros [= <-].
Qed.

(** X2: the registry keeps every handle under its own name: a reload
    that succeeds makes it so, a reload that fails and [AddRepository]
    leave it so. *)
Theorem registry_ok_kept (fs : FileSystem) (sc : Smithy) (rwn : RepositoryWithName) :
  ((LoadAllRepositories fs sc).2 = None ∨ registry_ok sc →
     registry_ok (LoadAllRepositories fs sc).1)
  ∧ (registry_ok sc → registry_ok (AddRepository sc rwn)).
Proof.
  split.
  - unfold LoadAllRepositories.
    destruct (ReadDir fs (Root sc)) as [files|e]; simpl.
    + intros _ slug v. apply load_entries_ok.
    + by intros [?|?].
  - intros Hok slug v. unfold AddRepository. simpl.
    destruct (decide (Name rwn = slug)) as [<-|Hne].
    + rewrite lookup_insert_eq. by intros [= <-].
    + rewrite lookup_insert_ne by done. apply Hok.
Qed.

Lemma registry_ok_kept_witness :
  registry_ok (LoadAllRepositories fs_two sc_one).1.
Proof.
  apply (proj1 (registry_ok_kept fs_two sc_one zeroRepositoryWithName)).
  left. reflexivity.
Defined.

(** X3: on a registry that a reload has made (before any reload the map
    of a [Smithy] is nil and cannot be stored into), [AddRepository]
    followed by [FindRepo] gives the handle back under its name and
    leaves every other name as it was. *)
Theorem AddRepository_FindRepo (fs : FileSystem) (sc : Smithy)
    (rwn : RepositoryWithName) (slug : string) :
  (LoadAllRepositories fs sc).2 = None →
  FindRepo (AddRepository (LoadAllRepositories fs sc).1 rwn) slug
  = if decide (slug = Name rwn) then (rwn, true)
    else FindRepo (LoadAllRepositories fs sc).1 slug.
Proof.
  intros _. unfold FindRepo, AddRepository. simpl.
  destruct (decide (slug = Name rwn)) as [->|Hne].
  - by rewrite lookup_insert_eq.
  - by rewrite lookup_insert_ne.
Qed.

Lemma AddRepository_FindRepo_witness :
  FindRepo (AddRepository (LoadAllRepositories fs_two sc_one).1
              {| Name := "new"; Path := "/srv/git/new"; Repository := emptyRepository |})
    "new"
  = ({| Name := "new"; Path := "/srv/git/new"; Repository := emptyRepository |}, true).
Proof.
  apply (AddRepository_FindRepo fs_two sc_one
           {| Name := "new"; Path := "/srv/git/new"; Repository := emptyRepository |}
           "new" eq_refl).
Defined.

(** *** [GetRepositories] *)

Lemma repo_le_leb a b : repo_le a b ↔ String.leb (Name a) (Name b) = true.
Proof.
  unfold repo_le, RepositoryByName_Less, String.ltb, String.leb.
  rewrite (String.compare_antisym (Name a) (Name b)).
  destruct (String.compare (Name b) (Name a)); simpl; split; congruence.
Qed.

#[global] Instance repo_le_total : Total repo_le.
Proof.
  intros a b. rewrite !repo_le_leb.
  destruct (String.leb_total (Name a) (Name b)); auto.
Qed.

#[global] Instance repo_le_trans : Transitive repo_le.
Proof.
  intros a b c. rewrite !repo_le_leb. unfold String.leb.
  intros H1 H2.
  pose proof (string_compare_not_gt_trans (Name a) (Name b) (Name c)) as Ht.
  destruct (String.compare (Name a) (Name b)); try discriminate;
    destruct (String.compare (Name b) (Name c)); try discriminate;
    destruct (String.compare (Name a) (Name c)); try reflexivity;
    exfalso; apply Ht; congruence.
Qed.

(** Sorting does not depend on the order of its input when the order
    tells the elements of the input apart. *)
Lemma merge_sort_order_free {A} (R : relation A) `{!RelDecision R}
    `{!Total R, !Transitive R} (l1 l2 : list A) :
  (∀ x y, x ∈ l1 → y ∈ l1 → R x y → R y x → x = y) →
  l1 ≡ₚ l2 → merge_sort R l1 = merge_sort R l2.
Proof.
  intros Hanti Hperm.
  apply (StronglySorted_unique_strong R).
  - intros x y Hx Hy. apply Hanti.
    + by rewrite merge_sort_Permutation in Hx.
    + by rewrite merge_sort_Permutation, <- Hperm in Hy.
  - by apply StronglySorted_merge_sort.
  - by apply StronglySorted_merge_sort.
  - by rewrite !merge_sort_Permutation.
Qed.

Lemma registry_values_distinct sc x y :
  registry_ok sc →
  x ∈ (snd <$> map_to_list (repos sc)) → y ∈ (snd <$> map_to_list (repos sc)) →
  Name x = Name y → x = y.
Proof.
  intros Hok Hx Hy Hname.
  apply list_elem_of_fmap in Hx as ([kx vx] & -> & Hx).
  apply list_elem_of_fmap in Hy as ([ky vy] & -> & Hy).
  apply elem_of_map_to_list in Hx, Hy. simpl in *.
  pose proof (Hok _ _ Hx) as Hkx. pose proof (Hok _ _ Hy) as Hky.
  assert (kx = ky) as -> by congruence. congruence.
Qed.

(** X4: [GetRepositories] lists the handles of the registry, each one
    once, in the order of their names. *)
Theorem GetRepositories_sorted_complete (sc : Smithy) :
  StronglySorted (λ a b, String.leb (Name a) (Name b) = true) (GetRepositories sc)
  ∧ (∀ rwn, rwn ∈ GetRepositories sc ↔ ∃ slug, repos sc !! slug = Some rwn)
  ∧ length (GetRepositories sc) = size (repos sc).
Proof.
  unfold GetRepositories, sorted_repositories. split; [|split].
  - apply (StronglySorted_mono repo_le); [intros a b; apply repo_le_leb|].
    apply (StronglySorted_merge_sort repo_le).
  - intros rwn. rewrite merge_sort_Permutation, list_elem_of_fmap. split.
    + intros ([k v] & -> & Hin). exists k. by apply elem_of_map_to_list in Hin.
    + intros (slug & Hslug). exists (slug, rwn). split; [done|].
      by apply elem_of_map_to_list.
  - rewrite merge_sort_Permutation, length_fmap. apply length_map_to_list.
Qed.

(** X5: in a registry that keeps its handles under their names, the
    list [GetRepositories] returns is the same for every order in which
    the map is walked. *)
Theorem GetRepositories_order_free (sc : Smithy) (visited : list RepositoryWithName) :
  registry_ok sc →
  visited ≡ₚ (snd <$> map_to_list (repos sc)) →
  sorted_repositories visited = GetRepositories sc.
Proof.
  intros Hok Hperm. unfold GetRepositories, sorted_repositories.
  apply (merge_sort_order_free repo_le visited _); [|exact Hperm].
  intros x y Hx Hy Hxy Hyx. rewrite Hperm in Hx, Hy.
  apply (registry_values_distinct sc); try done.
  apply repo_le_leb in Hxy, Hyx. by apply String.leb_antisym.
Qed.

Lemma GetRepositories_order_free_witness :
  sorted_repositories (snd <$> map_to_list (repos sc_one)) = GetRepositories sc_one.
Proof.
  apply (GetRepositories_order_free sc_one).
  - intros slug rwn. unfold sc_one. simpl.
    destruct (decide (slug = "a")) as [->|Hne].
    + rewrite lookup_singleton_eq. by intros [= <-].
    + by rewrite lookup_singleton_ne.
  - reflexivity.
Defined.

(** X6: [Reload] answers "done" in every case; when the root directory
    cannot be read the registry is what it was, otherwise it is the
    loaded one. *)
Theorem Reload_answer (fs : FileSystem) (sc : Smithy) :
  (Reload fs sc newResponseWriter).2
  = Returns {| header := ∅; status := Some 200; written := [Bytes "done"] |}
  ∧ (is_ok (ReadDir fs (Root sc)) = false →
       repos (Reload fs sc newResponseWriter).1 = repos sc)
  ∧ (∀ files, ReadDir fs (Root sc) = Ok files →
       repos (Reload fs sc newResponseWriter).1 = load_entries fs (Root sc) files).
Proof.
  unfold Reload, LoadAllRepositories.
  destruct (ReadDir fs (Root sc)) as [files|e]; simpl.
  - repeat split; [done|]. by intros ? [= <-].
  - repeat split; done.
Qed.

Lemma Reload_answer_witness :
  repos (Reload fs_unreadable sc_one newResponseWriter).1 = repos sc_one.
Proof.
  apply (proj1 (proj2 (Reload_answer fs_unreadable sc_one))). reflexivity.
Defined.

(** ** References *)

Lemma filter_all_tags refs :
  Forall (λ r, IsTag (RefName r) = true) (List.filter (λ r, IsTag (RefName r)) refs).
Proof. apply Forall_forall. intros x Hx. apply list_elem_of_In, filter_In in Hx. tauto. Qed.

Lemma ReferenceCollector_perm it :
  (ReferenceCollector it).1 ≡ₚ ri_refs it.
Proof.
  rewrite ReferenceCollector_spec. destruct (ri_end it); simpl; [done|].
  apply sort_refs_perm.
Qed.

(** X7: whatever the iterator does, [ListBranches] returns only
    references below [refs/heads/] and [ListTags] only references below
    [refs/tags/]; when the iterator ends without error they return all of
    them, each as often as the iterator gave it. *)
Theorem listing_contents (r : GitRepository) :
  all_branches (ListBranches r).1
  ∧ Forall (λ t, IsTag (RefName t) = true) (ListTags r).1
  ∧ (∀ it, IterReferences r = Ok it → ri_end it = None →
       (ListBranches r).1 ≡ₚ List.filter (λ x, IsBranch (RefName x)) (ri_refs it)
       ∧ (ListTags r).1 ≡ₚ List.filter (λ x, IsTag (RefName x)) (ri_refs it)).
Proof.
  unfold ListBranches, ListTags, Branches, Tags.
  destruct (IterReferences r) as [it|e]; simpl.
  - split; [|split].
    + rewrite ReferenceCollector_perm. apply filter_all_branches.
    + rewrite ReferenceCollector_perm. apply filter_all_tags.
    + intros it' [= <-] _. split; apply ReferenceCollector_perm.
  - split; [constructor|split; [constructor|intros ? [=]]].
Qed.

Lemma listing_contents_witness :
  (ListBranches (repo_with [branch "zeta"; mkReference "refs/tags/v1" "aa"; branch "alpha"] None)).1
  ≡ₚ [branch "zeta"; branch "alpha"].
Proof.
  apply (proj2 (proj2 (listing_contents
           (repo_with [branch "zeta"; mkReference "refs/tags/v1" "aa"; branch "alpha"] None)))
           {| ri_refs := [branch "zeta"; mkReference "refs/tags/v1" "aa"; branch "alpha"];
              ri_end := None |} eq_refl eq_refl).
Defined.

Lemma names_distinct (l : list Reference) x y :
  NoDup (RefName <$> l) → x ∈ l → y ∈ l → RefName x = RefName y → x = y.
Proof.
  induction l as [|a l IH]; [by intros _ Hx; apply elem_of_nil in Hx|].
  rewrite fmap_cons, NoDup_cons. intros [Ha Hnd] Hx Hy Hname.
  apply elem_of_cons in Hx as [->|Hx]; apply elem_of_cons in Hy as [->|Hy]; try done.
  - exfalso. apply Ha. rewrite Hname. by apply list_elem_of_fmap_2.
  - exfalso. apply Ha. rewrite <- Hname. by apply list_elem_of_fmap_2.
  - by apply IH.
Qed.

(** X8: two iterators that give the same references with distinct
    names, in any two orders, and end without error are collected into
    the same list: what is shown does not depend on the order of the
    store. *)
Theorem ReferenceCollector_order_free (it1 it2 : ReferenceIter) :
  ri_end it1 = None → ri_end it2 = None →
  NoDup (RefName <$> ri_refs it1) →
  ri_refs it1 ≡ₚ ri_refs it2 →
  ReferenceCollector it1 = ReferenceCollector it2.
Proof.
  intros He1 He2 Hnd Hperm. rewrite !ReferenceCollector_spec, He1, He2.
  f_equal. unfold sort_refs.
  apply (merge_sort_order_free ref_le _ _); [|exact Hperm].
  intros x y Hx Hy Hxy Hyx. apply (names_distinct (ri_refs it1)); try done.
  apply ref_le_name_le in Hxy, Hyx. by apply String.leb_antisym.
Qed.

Lemma ReferenceCollector_order_free_witness :
  ReferenceCollector {| ri_refs := [branch "zeta"; branch "alpha"]; ri_end := None |}
  = ReferenceCollector {| ri_refs := [branch "alpha"; branch "zeta"]; ri_end := None |}.
Proof.
  apply ReferenceCollector_order_free; try reflexivity.
  - simpl. apply NoDup_cons. split; [|apply NoDup_singleton].
    intros Hin. apply list_elem_of_singleton in Hin. discriminate.
  - apply Permutation_swap.
Defined.

Lemma scan_main_member l :
  scan_main l = "" ∨ scan_main l ∈ (λ b, Short (RefName b)) <$> l.
Proof.
  induction l as [|x l IH]; [by left|]. simpl.
  destruct (_ || _).
  - right. apply elem_of_cons. by left.
  - destruct IH as [?|?]; [by left|]. right. apply elem_of_cons. by right.
Qed.

(** X9: [findMainBranch] never makes up a name: with no listed branch it
    fails with "no branches found", and otherwise the name it returns is
    the short name of one of the listed branches, whether or not the
    listing or the resolution failed. *)
Theorem findMainBranch_names_listed_branch (r : GitRepository) :
  ((ListBranches r).1 = [] → findMainBranch r = ("", None, Some errNoBranches))
  ∧ ((ListBranches r).1 ≠ [] →
       (findMainBranch r).1.1 ∈ (λ b, Short (RefName b)) <$> (ListBranches r).1).
Proof.
  unfold findMainBranch. destruct (ListBranches r) as [branches err]. simpl.
  destruct branches as [|first rest]; split; try done. intros _.
  destruct (scan_main_member (first :: rest)) as [Hnone|Hin].
  - rewrite Hnone. simpl.
    destruct (ResolveRevision r (Short (RefName first))); simpl;
      apply elem_of_cons; by left.
  - destruct (String.eqb (scan_main (first :: rest)) "") eqn:Hempty.
    + destruct (ResolveRevision r (Short (RefName first))); simpl;
        apply elem_of_cons; by left.
    + destruct (ResolveRevision r (scan_main (first :: rest))); exact Hin.
Qed.

Lemma findMainBranch_names_listed_branch_witness :
  (findMainBranch repo_failing_iter).1.1
  ∈ (λ b, Short (RefName b)) <$> (ListBranches repo_failing_iter).1.
Proof.
  apply (proj2 (findMainBranch_names_listed_branch repo_failing_iter)).
  discriminate.
Defined.

(** X10: for a registered repository [RefsView] always shows the refs
    page, and each of the two lists on it is sorted by full name: a
    listing that failed is shown as the empty list, never as the part
    that was read. *)
Theorem RefsView_lists_sorted (sc : Smithy) (w : ResponseWriter) (r : Request)
    (repo : RepositoryWithName) :
  FindRepo sc (GetParam r "repo") = (repo, true) →
  ∃ branches tags,
    RefsView sc w r
    = Returns (Render w "refs"
        {[ "RepoName" := VStr (GetParam r "repo");
           "Branches" := VRefs branches; "Tags" := VRefs tags ]})
    ∧ sorted_by_name branches ∧ sorted_by_name tags
    ∧ (branches = [] ∨ ListBranches (Repository repo) = (branches, None))
    ∧ (tags = [] ∨ ListTags (Repository repo) = (tags, None)).
Proof.
  intros Hrepo. unfold RefsView. rewrite Hrepo. cbv beta iota delta [negb].
  assert (∀ l : list Reference * option error,
            let shown := match l with (_, Some _) => [] | (bs, None) => bs end in
            (shown = [] ∨ l = (shown, None))) as Hshown.
  { intros [bs [e|]]; simpl; auto. }
  assert (∀ it, let shown := match ReferenceCollector it with
                             | (_, Some _) => [] | (bs, None) => bs end in
                sorted_by_name shown) as Hsorted.
  { intros it. rewrite ReferenceCollector_spec. destruct (ri_end it); simpl.
    - constructor.
    - apply sort_refs_sorted. }
  eexists _, _. split; [reflexivity|].
  split; [|split; [|split]].
  - unfold ListBranches. destruct (Branches (Repository repo)); [apply Hsorted|constructor].
  - unfold ListTags. destruct (Tags (Repository repo)); [apply Hsorted|constructor].
  - apply Hshown.
  - apply Hshown.
Qed.

Lemma RefsView_lists_sorted_witness :
  ∃ branches tags,
    RefsView (sc_two []) newResponseWriter (request "proj" "" "" "" "")
    = Returns (Render newResponseWriter "refs"
        {[ "RepoName" := VStr "proj"; "Branches" := VRefs branches; "Tags" := VRefs tags ]})
    ∧ sorted_by_name branches ∧ sorted_by_name tags.
Proof.
  destruct (RefsView_lists_sorted (sc_two []) newResponseWriter
              (request "proj" "" "" "" "")
              {| Name := "proj"; Path := "/srv/git/proj"; Repository := repo_two [] |}
              eq_refl) as (branches & tags & Hview & Hb & Ht & _).
  by exists branches, tags.
Defined.

(** ** The readme *)

Lemma CommitFile_name commit path f :
  CommitFile commit path = Ok f → fileName f = path.
Proof.
  unfold CommitFile. destruct (CommitTree commit); [|done].
  destruct (file_hash path _); [|done]. by intros [= <-].
Qed.

Lemma first_readme_spec commit options :
  match first_readme commit options with
  | Ok f =>
      ∃ before after,
        options = before ++ fileName f :: after
        ∧ CommitFile commit (fileName f) = Ok f
        ∧ Forall (λ opt, is_ok (CommitFile commit opt) = false) before
  | Err e =>
      e = errNoReadme
      ∧ Forall (λ opt, is_ok (CommitFile commit opt) = false) options
  end.
Proof.
  induction options as [|opt rest IH]; simpl; [by split|].
  destruct (CommitFile commit opt) as [f|e] eqn:Hfile.
  - exists [], rest. rewrite (CommitFile_name _ _ _ Hfile).
    by split; [|split; [|constructor]].
  - destruct (first_readme commit rest) as [f|e'].
    + destruct IH as (before & after & -> & Hf & Hbefore).
      exists (opt :: before), after. split; [done|]. split; [done|].
      constructor; [by rewrite Hfile|done].
    + destruct IH as [-> Hall]. split; [done|].
      constructor; [by rewrite Hfile|done].
Qed.

(** X11: [GetReadmeFromCommit] returns the file of the first of its
    eight names, in the order readme, README, readme.md, README.md,
    readme.txt, README.txt, readme.markdown, README.markdown, that is a
    file of the commit's tree; it fails, always with "no valid readme",
    exactly when none of them is (an unreadable tree included). *)
Theorem GetReadmeFromCommit_first_match (commit : Commit) :
  match GetReadmeFromCommit commit with
  | Ok f =>
      ∃ before after,
        readme_options = before ++ fileName f :: after
        ∧ CommitFile commit (fileName f) = Ok f
        ∧ Forall (λ opt, is_ok (CommitFile commit opt) = false) before
  | Err e =>
      e = errNoReadme
      ∧ Forall (λ opt, is_ok (CommitFile commit opt) = false) readme_options
  end.
Proof. apply first_readme_spec. Qed.

(** A [README.md] is passed over when there is a [README]; a directory
    called [README] is not a readme. *)
Example GetReadmeFromCommit_priority :
  GetReadmeFromCommit
    {| CommitHash := hash_root; AuthorName := "Ada"; AuthorEmail := "ada@example.org";
       AuthorWhen := epoch; Message := "first"; Parents := [];
       CommitTree := Ok [("README", Blob Regular "aa"); ("README.md", Blob Regular "bb")] |}
  = Ok {| fileName := "README"; fileBlob := "aa" |}
  ∧ GetReadmeFromCommit
      {| CommitHash := hash_root; AuthorName := "Ada"; AuthorEmail := "ada@example.org";
         AuthorWhen := epoch; Message := "first"; Parents := [];
         CommitTree := Ok [("README", Dir [("x", Blob Regular "aa")]); ("readme.txt", Blob Regular "bb")] |}
    = Ok {| fileName := "readme.txt"; fileBlob := "bb" |}.
Proof. split; reflexivity. Qed.

(** ** Changes *)

(** X12: [GetChanges] treats a first parent that cannot be loaded like
    no parent at all: it gives [DiffTree] the nil tree as the base, as
    for a first commit, and so shows every file of the commit as
    inserted; once the parent is loaded, a failure to read the parent's
    tree is returned as the error. *)
Theorem GetChanges_parent_failures (DiffTree : Differ) (commit : Commit) :
  (∀ e t, Parent commit 0 = Err e → CommitTree commit = Ok t →
          GetChanges DiffTree commit = DiffTree None (Some t)
          ∧ (inserts_all DiffTree →
             ∃ changes, GetChanges DiffTree commit = Ok changes
                        ∧ changes ≡ₚ inserted <$> tree_entries t))
  ∧ (∀ parent e, Parent commit 0 = Ok parent → CommitTree parent = Err e →
          GetChanges DiffTree commit = Err e).
Proof.
  split.
  - intros e t Hparent Htree.
    assert (GetChanges DiffTree commit = DiffTree None (Some t)) as Hget.
    { unfold GetChanges. by rewrite Hparent, Htree. }
    split; [done|]. intros Hdiff.
    destruct (Hdiff t) as (changes & Hchanges & Hperm).
    exists changes. by rewrite Hget.
  - intros parent e Hparent Htree. unfold GetChanges. by rewrite Hparent, Htree.
Qed.

Lemma GetChanges_parent_failures_witness :
  GetChanges diff_by_path orphan_commit
  = Ok [ {| From := None; To := Some (mkChangeEntry "README" Regular "cc") |} ].
Proof.
  rewrite (proj1 (proj1 (GetChanges_parent_failures diff_by_path orphan_commit)
                    "object not found" [("README", Blob Regular "cc")] eq_refl eq_refl)).
  reflexivity.
Defined.

(** ** Formatting changes *)

Lemma format_loop_spec patchOf changes s :
  format_loop patchOf changes s
  = match format_loop patchOf changes [] with
    | Ok parts => Ok (s ++ parts)
    | Err e => Err e
    end.
Proof.
  revert s. induction changes as [|c changes IH]; intros s; simpl.
  - by rewrite app_nil_r.
  - destruct (patchOf c) as [p|e]; [|done].
    rewrite IH, (IH [PatchHTML p]).
    destruct (format_loop patchOf changes []); [|done].
    by rewrite <- app_assoc.
Qed.

(** X14: [FormatChanges] fails exactly when [Patch] fails for one of the
    changes, with the error of the first such change; otherwise it is
    the buffers of the encoder in the order of the changes, joined by
    four line feeds, also where the encoder ended with an error. *)
Theorem FormatChanges_spec (patchOf : Change → result Encoded) (changes : list Change) :
  match FormatChanges patchOf changes with
  | Ok text =>
      ∃ patches,
        Forall2 (λ c p, patchOf c = Ok p) changes patches
        ∧ text = String.concat changeSeparator (encBuffer <$> patches)
  | Err e =>
      ∃ before c after,
        changes = before ++ c :: after
        ∧ patchOf c = Err e
        ∧ Forall (λ c', is_ok (patchOf c') = true) before
  end.
Proof.
  unfold FormatChanges.
  assert (match format_loop patchOf changes [] with
          | Ok parts => ∃ patches, Forall2 (λ c p, patchOf c = Ok p) changes patches
                                   ∧ parts = encBuffer <$> patches
          | Err e => ∃ before c after, changes = before ++ c :: after
                       ∧ patchOf c = Err e
                       ∧ Forall (λ c', is_ok (patchOf c') = true) before
          end) as Hloop.
  { induction changes as [|c changes IH]; simpl.
    - exists []. by split; [constructor|].
    - destruct (patchOf c) as [p|e] eqn:Hp.
      + rewrite format_loop_spec.
        destruct (format_loop patchOf changes []) as [parts|e].
        * destruct IH as (patches & Hall & ->). exists (p :: patches).
          split; [by constructor|done].
        * destruct IH as (before & c' & after & -> & Hc' & Hbefore).
          exists (c :: before), c', after. split; [done|]. split; [done|].
          constructor; [by rewrite Hp|done].
      + exists [], c, changes. by split; [|split; [|constructor]]. }
  destruct (format_loop patchOf changes []) as [parts|e]; [|done].
  destruct Hloop as (patches & Hall & ->). by exists patches.
Qed.

(** No change, no text; an encoder error does not fail the call. *)
Example FormatChanges_examples :
  FormatChanges (λ _, Err "no patch") [] = Ok ""
  ∧ FormatChanges (λ _, Ok {| encBuffer := "@@"; encError := Some "write failed" |})
      [inserted (mkChangeEntry "a" Regular "aa"); inserted (mkChangeEntry "b" Regular "bb")]
    = Ok ("@@" +:+ changeSeparator +:+ "@@").
Proof. split; reflexivity. Qed.

(** ** Patches and the log *)

(** X15: [PatchView] never ends the process, and it panics exactly for a
    commit without parents of a registered repository; in every other
    case it returns. *)
Theorem PatchView_panics_iff (lib : GitLib) (sc : Smithy) (w : ResponseWriter) (r : Request) :
  process_survives (PatchView lib sc w r) = true
  ∧ (is_panic (PatchView lib sc w r) = true ↔
       ∃ repo commitObj,
         FindRepo sc (GetParam r "repo") = (repo, true)
         ∧ GetParam r "hash" ≠ ""
         ∧ CommitObject (Repository repo) (NewHash (GetParam r "hash")) = Ok commitObj
         ∧ NumParents commitObj = 0%nat).
Proof.
  unfold PatchView.
  destruct (FindRepo sc (GetParam r "repo")) as [repo found].
  destruct found; cbv beta iota delta [negb];
    [|split; [done|split; [done|intros (? & ? & [=] & _)]]].
  destruct (String.eqb_spec (GetParam r "hash") "") as [Hempty|Hhash];
    [split; [done|split; [done|intros (? & ? & _ & Hne & _); done]]|].
  destruct (CommitObject (Repository repo) (NewHash (GetParam r "hash")))
    as [commitObj|e] eqn:Hcommit;
    [|split; [done|split; [done|intros (? & ? & [= <-] & _ & Hc & _); congruence]]].
  destruct (Nat.eqb_spec (NumParents commitObj) 0) as [Hzero|Hparents].
  { split; [done|]. split; [intros _|done]. by exists repo, commitObj. }
  assert (¬ ∃ repo0 c,
            (repo, true) = (repo0, true) ∧ GetParam r "hash" ≠ ""
            ∧ CommitObject (Repository repo0) (NewHash (GetParam r "hash")) = Ok c
            ∧ NumParents c = 0%nat) as Hno.
  { intros (? & ? & [= <-] & _ & Hc & Hz). congruence. }
  destruct (Parent commitObj 0) as [parentCommit|e]; [|by split; [|split]].
  destruct (PatchString lib parentCommit commitObj) as [patch|e]; [|by split; [|split]].
  destruct (StatsString lib commitObj) as [stats|e]; by split; [|split].
Qed.

(** A merge is answered with the patch against its first parent. *)
Example PatchView_never_panics_with_parent :
  is_panic (PatchView lib_fix (sc_two []) newResponseWriter
              (request "proj" hash_child "" "" "")) = false
  ∧ is_panic (PatchView lib_fix (sc_two []) newResponseWriter
                (request "proj" "feedbeef" "" "" "")) = false.
Proof. split; reflexivity. Qed.

Lemma commits_of_all_ok items :
  existsb (λ item, negb (is_ok item)) items = false →
  length (commits_of items) = length items.
Proof.
  induction items as [|[c|e] items IH]; simpl; [done| |done].
  intros Hrest. by rewrite IH.
Qed.

(** X16: the loop of [LogView] makes at most 500 rows, one for each of
    the first answers of the iterator and in their order; what the
    iterator would give after its 500th answer, an error included, is
    never asked for. *)
Theorem log_loop_page (items : list (result Commit)) :
  log_loop PAGE_SIZE items [] = log_loop PAGE_SIZE (take PAGE_SIZE items) []
  ∧ (∀ commits, log_loop PAGE_SIZE items [] = Some commits →
       commits = log_row <$> commits_of (take PAGE_SIZE items)
       ∧ length commits = (length items `min` PAGE_SIZE)%nat).
Proof.
  split.
  - rewrite !log_loop_spec. by rewrite take_take, Nat.min_id.
  - intros commits. rewrite log_loop_spec.
    destruct (existsb _ _) eqn:Hok; [done|]. intros [= <-].
    split; [done|].
    rewrite length_fmap, (commits_of_all_ok _ Hok), length_take. lia.
Qed.

Lemma log_loop_page_witness :
  log_loop PAGE_SIZE [Ok child_commit; Ok root_commit] []
  = Some [log_row child_commit; log_row root_commit].
Proof.
  destruct (proj2 (log_loop_page [Ok child_commit; Ok root_commit])
              [log_row child_commit; log_row root_commit] eq_refl) as [-> _].
  reflexivity.
Defined.

Lemma first_line_split s :
  one_line (first_line s) = true
  ∧ ∃ rest, s = first_line s +:+ rest
            ∧ (rest = "" ∨ ∃ rest', rest = String "010"%char rest').
Proof.
  induction s as [|c s [IH1 (rest & IH2 & IH3)]]; simpl.
  { split; [done|]. exists "". by split; [|left]. }
  destruct (Ascii.eqb_spec c "010"%char) as [->|Hc].
  - split; [done|]. exists (String "010"%char s). split; [done|]. right. by eexists.
  - simpl. split.
    + rewrite IH1. by destruct (Ascii.eqb_spec c "010"%char).
    + exists rest. split; [|done]. rewrite append_cons. by f_equal.
Qed.

Lemma substring_0_prefix n s :
  String.prefix (String.substring 0 n s) s = true
  ∧ String.length (String.substring 0 n s) = (n `min` String.length s)%nat.
Proof.
  revert s. induction n as [|n IH]; intros [|c s]; simpl; try done.
  destruct (IH s) as [IH1 IH2]. rewrite IH1, IH2.
  by destruct (ascii_dec c c).
Qed.

(** X17: the subject of a row of the log is the message up to its first
    line feed, and has none itself; the short hash is the first eight
    characters of the hash. *)
Theorem log_row_fields (commit : Commit) :
  one_line (Subject (log_row commit)) = true
  ∧ (∃ rest, Message commit = Subject (log_row commit) +:+ rest
             ∧ (rest = "" ∨ ∃ rest', rest = String "010"%char rest'))
  ∧ String.prefix (ShortHash (log_row commit)) (CommitHash commit) = true
  ∧ String.length (ShortHash (log_row commit))
    = (8 `min` String.length (CommitHash commit))%nat.
Proof.
  unfold log_row, short_hash. simpl.
  destruct (first_line_split (Message commit)) as [H1 H2].
  destruct (substring_0_prefix 8 (CommitHash commit)) as [H3 H4].
  done.
Qed.

(** ** The bridge *)

Lemma length_sprintf_x4_ge n : (4 ≤ String.length (sprintf_x4 n))%nat.
Proof. unfold sprintf_x4. rewrite length_append, length_zeros. lia. Qed.

(** X18: for every service name, of any length, [getInfoRefs] first
    writes a hexadecimal number that reads back as the length of the
    service line plus 5, then the line and a line feed, then [0000]; the
    number has at least four digits, and exactly four when it is below
    65536. *)
Theorem getInfoRefs_prefix (exec : Exec) (sc : Smithy) (r : Request) :
  let line := serviceLine (replace_first "git-" "" (QueryGet r "service")) in
  let n := Z.of_nat (String.length line) + offset in
  ∃ pkt tail,
    written (writer_of (getInfoRefs exec sc newResponseWriter r))
    = Bytes (pkt +:+ line +:+ newline) :: Bytes "0000" :: tail
    ∧ hex_value pkt = Some n
    ∧ (4 ≤ String.length pkt)%nat
    ∧ (String.length pkt = 4%nat ↔ n < 65536).
Proof.
  intros line n. exists (sprintf_x4 n).
  assert (0 ≤ n) as Hn by (unfold n, offset; lia).
  assert (∃ tail, written (writer_of (getInfoRefs exec sc newResponseWriter r))
                  = Bytes (sprintf_x4 n +:+ line +:+ newline) :: Bytes "0000" :: tail)
    as [tail Htail].
  { unfold getInfoRefs. destruct (FindRepo sc (GetParam r "repo")) as [repo found].
    fold line. fold n. unfold WriteGitToHttp.
    destruct (exec _ _) as [e|e|out [e|]]; by eexists. }
  exists tail. split; [done|]. split; [by apply hex_value_sprintf_x4|].
  split; [apply length_sprintf_x4_ge|]. split.
  - intros Hlen. by apply (hex_value_four_digits _ _ Hlen), hex_value_sprintf_x4.
  - intros Hlt. by apply length_sprintf_x4.
Qed.

(** X19: once [getInfoRefs] has written the advertisement the status is
    200: the 404 that [WriteGitToHttp] sets when [git] cannot be started
    comes too late, and whatever happens to [git] the status line of
    [info/refs] says 200. *)
Theorem getInfoRefs_status (exec : Exec) (sc : Smithy) (w : ResponseWriter) (r : Request) :
  status (writer_of (getInfoRefs exec sc w r)) = Some (default 200 (status w)).
Proof.
  unfold getInfoRefs. destruct (FindRepo sc (GetParam r "repo")) as [repo found].
  unfold WriteGitToHttp. destruct (exec _ _) as [e|e|out [e|]]; reflexivity.
Qed.

(** X20: when [git] runs, [getInfoRefs] sends the advertisement and then
    the output of [git --stateless-rpc --advertise-refs] on the path of
    the repository, byte for byte and nothing after it. *)
Theorem getInfoRefs_relays (exec : Exec) (sc : Smithy) (r : Request)
    (repo : RepositoryWithName) (found : bool) (out : string) (copyErr : option error) :
  let serviceName := replace_first "git-" "" (QueryGet r "service") in
  let line := serviceLine serviceName in
  FindRepo sc (GetParam r "repo") = (repo, found) →
  exec [serviceName; "--stateless-rpc"; "--advertise-refs"; Path repo] None
    = Runs out copyErr →
  raw_bytes (written (writer_of (getInfoRefs exec sc newResponseWriter r)))
  = Some (sprintf_x4 (Z.of_nat (String.length line) + offset) +:+ line +:+ newline
          +:+ "0000" +:+ out).
Proof.
  intros serviceName line Hrepo Hexec. unfold getInfoRefs. rewrite Hrepo.
  fold serviceName. fold line. unfold WriteGitToHttp. simpl args. simpl procInput.
  rewrite append_nil_r, Hexec.
  destruct copyErr; simpl; by rewrite !append_assoc, append_nil_r.
Qed.

Lemma getInfoRefs_relays_witness :
  raw_bytes (written (writer_of
    (getInfoRefs (λ _ _, Runs "00000000" None) (sc_two []) newResponseWriter
       (request "proj" "" "" "git-upload-pack" ""))))
  = Some ("001e# service=git-upload-pack" +:+ newline +:+ "0000" +:+ "00000000").
Proof.
  apply (getInfoRefs_relays (λ _ _, Runs "00000000" None) (sc_two [])
           (request "proj" "" "" "git-upload-pack" "")
           {| Name := "proj"; Path := "/srv/git/proj"; Repository := repo_two [] |}
           true "00000000" None eq_refl eq_refl).
Defined.

Lemma replace_first_prefix old new s :
  replace_first old new (old +:+ s) = new +:+ s.
Proof.
  destruct (old +:+ s) as [|c t] eqn:Hs.
  - destruct old; [|discriminate]. change ("" +:+ s) with s in Hs.
    subst. by rewrite append_nil_r.
  - cbn [replace_first]. by rewrite <- Hs, prefix_append, string_drop_append.
Qed.

Lemma replace_first_absent old new s :
  after_first old s = None → replace_first old new s = s.
Proof.
  induction s as [|c s IH]; cbn [after_first replace_first].
  - by destruct (String.prefix old "").
  - destruct (String.prefix old (String c s)); [done|].
    intros Hnone. by rewrite IH.
Qed.

(** X21: for a query value that starts with [git-] the service line
    repeats the value; for one without [git-] the prefix is added to
    it. *)
Theorem serviceLine_of_query (service : string) :
  (∀ verb, service = "git-" +:+ verb →
     serviceLine (replace_first "git-" "" service) = "# service=" +:+ service)
  ∧ (after_first "git-" service = None →
     serviceLine (replace_first "git-" "" service) = "# service=git-" +:+ service).
Proof.
  split.
  - intros verb ->. by rewrite replace_first_prefix.
  - intros Habsent. by rewrite replace_first_absent.
Qed.

Lemma serviceLine_of_query_witness :
  serviceLine (replace_first "git-" "" "git-receive-pack") = "# service=git-receive-pack"
  ∧ serviceLine (replace_first "git-" "" "upload-pack") = "# service=git-upload-pack".
Proof.
  split.
  - apply (proj1 (serviceLine_of_query "git-receive-pack") "receive-pack" eq_refl).
  - apply (proj2 (serviceLine_of_query "upload-pack") eq_refl).
Defined.

(** It is the first [git-] anywhere in the value that goes. *)
Example serviceLine_inner_prefix :
  serviceLine (replace_first "git-" "" "x-git-upload-pack") = "# service=git-x-upload-pack".
Proof. reflexivity. Qed.

(** X22: a call of [uploadPack] or [receivePack] leaves the process
    running exactly when the request body could be read and [git], run
    on the path of the repository with the body as its input, wrote its
    output to the end; the answer is then that output and nothing
    else. *)
Theorem pack_endpoints_survive (exec : Exec) (sc : Smithy) (w : ResponseWriter) (r : Request) :
  let repoPath := Path (FindRepo sc (GetParam r "repo")).1 in
  (process_survives (uploadPack exec sc w r) = true ↔
     ∃ requestBody out,
       body r = Ok requestBody
       ∧ exec ["upload-pack"; "--stateless-rpc"; repoPath] (Some requestBody) = Runs out None
       ∧ uploadPack exec sc w r
         = Returns (Fprintf (HeaderSet w "Content-Type" "application/x-git-upload-pack-result") out))
  ∧ (process_survives (receivePack exec sc w r) = true ↔
     ∃ requestBody out,
       body r = Ok requestBody
       ∧ exec ["receive-pack"; "--stateless-rpc"; repoPath] (Some requestBody) = Runs out None
       ∧ receivePack exec sc w r
         = Returns (Fprintf (HeaderSet w "Content-Type" "application/x-git-receive-pack-result") out)).
Proof.
  intros repoPath. unfold uploadPack, receivePack, repoPath.
  destruct (FindRepo sc (GetParam r "repo")) as [repo found]. simpl.
  rewrite append_nil_r. unfold WriteGitToHttp. simpl.
  destruct (body r) as [requestBody|e].
  - split.
    + destruct (exec ["upload-pack"; "--stateless-rpc"; Path repo] (Some requestBody))
        as [e|e|out [e|]] eqn:Hexec; simpl; split; try done;
        try (intros (b & o & [= <-] & Hrun & _); congruence).
      intros _. by exists requestBody, out.
    + destruct (exec ["receive-pack"; "--stateless-rpc"; Path repo] (Some requestBody))
        as [e|e|out [e|]] eqn:Hexec; simpl; split; try done;
        try (intros (b & o & [= <-] & Hrun & _); congruence).
      intros _. by exists requestBody, out.
  - split; (split; [done|intros (? & ? & [=] & _)]).
Qed.

Lemma pack_endpoints_survive_witness :
  process_survives
    (uploadPack exec_silent (sc_two []) newResponseWriter (request "proj" "" "" "" "0000"))
  = true.
Proof.
  apply (proj1 (pack_endpoints_survive exec_silent (sc_two []) newResponseWriter
                  (request "proj" "" "" "" "0000"))).
  exists "0000", "". repeat split; reflexivity.
Defined.

(** A client that breaks off its upload ends the server. *)
Example uploadPack_body_unreadable :
  process_survives
    (uploadPack exec_silent (sc_two []) newResponseWriter
       {| params := {[ "repo" := "proj" ]}; query := ∅; body := Err "unexpected EOF" |})
  = false.
Proof. reflexivity. Qed.

(** ** Creating a project *)

(** X23: for a request that is not a GET, [NewProject] ends by writing
    the name of the project in every case: after a failed [PlainInit]
    the name follows the error page with its status 500, and the status
    line says 200 all the same. *)
Theorem NewProject_answer (init : string → bool → option error)
    (join : string → string → string) (sc : Smithy) (r : FormRequest) :
  Method r ≠ "GET" →
  ∃ w, NewProject init join sc newResponseWriter r = Returns w
       ∧ status w = Some 200
       ∧ written w
         = match init (join (Root sc) (FormValue r "name")) true with
           | Some err =>
               [Page "error.html" {[ "Status" := VInt 500; "Error" := VStr err ]};
                Bytes (FormValue r "name")]
           | None => [Bytes (FormValue r "name")]
           end.
Proof.
  intros Hmethod. unfold NewProject.
  apply String.eqb_neq in Hmethod. rewrite Hmethod.
  destruct (init _ _); eexists; repeat split; reflexivity.
Qed.

Lemma NewProject_answer_witness :
  ∃ w, NewProject (λ _ _, Some "repository already exists") (λ d n, d +:+ "/" +:+ n)
         sc_one newResponseWriter
         {| Method := "POST"; FormValue := λ _, "proj" |} = Returns w
       ∧ written w
         = [Page "error.html" {[ "Status" := VInt 500;
                                 "Error" := VStr "repository already exists" ]};
            Bytes "proj"].
Proof.
  destruct (NewProject_answer (λ _ _, Some "repository already exists")
              (λ d n, d +:+ "/" +:+ n) sc_one
              {| Method := "POST"; FormValue := λ _, "proj" |}
              ltac:(discriminate)) as (w & Hret & _ & Hwritten).
  by exists w.
Defined.

(** ** Importing a project *)

(** X24: on a registry that a reload has made (before any reload the map
    of a [Smithy] is nil and [AddRepository] cannot store into it), a
    failed clone leaves the registry as it was and shows the error page
    with status 500; after a clone that worked the answer is "done" and
    the registry is the one the reload finds on disk, the handle that
    [AddRepository] stored being kept only when the root directory
    cannot be read. *)
Theorem ImportProject_registry (clone : string → bool → string → result GitRepository)
    (join : string → string → string) (fs0 fs : FileSystem)
    (sc0 : Smithy) (w : ResponseWriter) (r : FormRequest) :
  (LoadAllRepositories fs0 sc0).2 = None →
  Method r ≠ "GET" →
  let sc := (LoadAllRepositories fs0 sc0).1 in
  let name := FormValue r "name" in
  let repoPath := join (Root sc) name in
  match clone repoPath (String.eqb (FormValue r "bare") "on") (FormValue r "git") with
  | Err err =>
      ImportProject clone join fs sc w r
      = (sc, Returns (Render w "error" {[ "Status" := VInt 500; "Error" := VStr err ]}))
  | Ok repo =>
      (ImportProject clone join fs sc w r).2 = Returns (Fprintf w "done")
      ∧ repos (ImportProject clone join fs sc w r).1
        = match ReadDir fs (Root sc) with
          | Ok files => load_entries fs (Root sc) files
          | Err _ =>
              <[name := {| Name := name; Path := repoPath; Repository := repo |}]> (repos sc)
          end
  end.
Proof.
  intros _ Hmethod sc name repoPath. unfold ImportProject.
  apply String.eqb_neq in Hmethod. rewrite Hmethod. fold name. fold repoPath.
  destruct (clone repoPath _ _) as [repo|err]; [|done].
  unfold Reload. unfold LoadAllRepositories at 1 2. simpl.
  by destruct (ReadDir fs (Root sc)).
Qed.

Lemma ImportProject_registry_witness :
  repos (ImportProject (λ _ _ _, Ok emptyRepository) (λ d n, d +:+ "/" +:+ n) fs_two
           (LoadAllRepositories fs_one sc_one).1 newResponseWriter
           {| Method := "POST"; FormValue := λ _, "fresh" |}).1
  = load_entries fs_two "/srv/git" ["notes"; "proj"].
Proof.
  apply (ImportProject_registry (λ _ _ _, Ok emptyRepository) (λ d n, d +:+ "/" +:+ n)
           fs_one fs_two sc_one newResponseWriter
           {| Method := "POST"; FormValue := λ _, "fresh" |} eq_refl ltac:(discriminate)).
Defined.
